(** * OCR post-processing for Persian/Arabic text: a shallow embedding

    The development follows three source files:
    - [post_process_enhanced.py]: the confusion table, the confusion-weighted
      edit distance and the [EnhancedPostProcessor] corrector;
    - [post_process_context.py]: the bigram/trigram scorer of
      [ContextAwarePostProcessor];
    - [build_corpus_model.py]: [CorpusProcessor] and its merge of a saved
      model.

    Conventions of the embedding.
    - A Python [str] is the list of its code points ([list N]); a one-character
      string is a one-element list.
    - Python [float] and [int] scores are exact rationals ([Q]); equality of
      scores is [Qeq] ([==]).  Counts and lengths are integers ([Z], [nat]).
    - A [set] is a [gset], a [dict]/[Counter]/[defaultdict] is a [gmap]; a
      missing [Counter] key reads as 0.
    - What the interpreter and third-party libraries decide (the order in
      which a [set] is iterated, the optional fuzzy-matching library, the
      regular-expression class [\w]) is gathered in the record [runtime].
    - [print] calls and the [verbose] flag have no effect on returned values and
      are left out. *)

From Stdlib Require Import QArith Qminmax Lqa.
From stdpp Require Import gmap strings list fin_maps sorting.

Open Scope Z_scope.

(** ** Python built-ins used by the code *)

Module Py.

Abbreviation str := (list N).

(** [str.isspace] on one code point (the table of CPython's
    [_PyUnicode_IsWhitespace]). *)
Definition is_space (c : N) : bool :=
  ((0x09 <=? c) && (c <=? 0x0D) || (0x1C <=? c) && (c <=? 0x20)
   || (c =? 0x85) || (c =? 0xA0) || (c =? 0x1680)
   || (0x2000 <=? c) && (c <=? 0x200A)
   || (c =? 0x2028) || (c =? 0x2029) || (c =? 0x202F) || (c =? 0x205F)
   || (c =? 0x3000))%N.

(** [text.split()]: maximal runs of non-whitespace characters. *)
Fixpoint split (text : str) : list str :=
  match text with
  | [] => []
  | c :: rest =>
      if is_space c then split rest
      else match rest with
           | [] => [[c]]
           | d :: _ =>
               if is_space d then [c] :: split rest
               else match split rest with
                    | w :: ws => (c :: w) :: ws
                    | [] => [[c]]
                    end
           end
  end.

(** [' '.join(words)]. *)
Fixpoint join (words : list str) : str :=
  match words with
  | [] => []
  | [w] => w
  | w :: ws => w ++ 0x20%N :: join ws
  end.

(** [len(s)] as a Python integer. *)
Definition len {A} (l : list A) : Z := Z.of_nat (length l).

(** [l[:k]]; a negative [k] counts from the end. *)
Definition slice_to {A} (l : list A) (k : Z) : list A :=
  if 0 <=? k then take (Z.to_nat k) l
  else take (length l - Z.to_nat (- k))%nat l.

(** [list(enumerate(l))]. *)
Definition enumerate {A} (l : list A) : list (nat * A) :=
  imap (λ i x, (i, x)) l.

(** [min(a, b)] and [max(a, b)] keep the first argument on a tie. *)
Definition min (a b : Q) : Q := if Qlt_le_dec b a then b else a.
Definition max (a b : Q) : Q := if Qlt_le_dec a b then b else a.
Definition min3 (a b c : Q) : Q := min (min a b) c.

(** Truth value of an [Optional[str]] and of an [Optional[list]]. *)
Definition truthy {A} (o : option (list A)) : bool :=
  match o with Some (_ :: _) => true | _ => false end.

(** [counter[k]] and [counter.get(k, 0)]. *)
Definition count (c : gmap str Z) (k : str) : Z := default 0 (c !! k).

(** [list.sort(key=...)]: the sort is stable, so its result is the one of
    a stable insertion sort. *)
Fixpoint insert_by {A} (key : A → Q) (x : A) (l : list A) : list A :=
  match l with
  | [] => [x]
  | y :: l' =>
      if Qlt_le_dec (key y) (key x) then y :: insert_by key x l'
      else x :: l
  end.

Definition sort_by {A} (key : A → Q) (l : list A) : list A :=
  foldr (insert_by key) [] l.

(** Values stored in the debug dictionaries. *)
Inductive value :=
| VNone
| VInt (z : Z)
| VFloat (q : Q)
| VStr (s : str)
| VList (l : list Z).

(** [{**d1, **d2}]: the entries of [d2] win. *)
Definition dict_update (d1 d2 : gmap string value) : gmap string value :=
  d2 ∪ d1.

Definition opt_str (o : option str) : value :=
  match o with Some s => VStr s | None => VNone end.

(** [sum(l)] and [sum(l) / len(l)] on floats. *)
Definition sum (l : list Q) : Q := foldl Qplus 0%Q l.
Definition mean (l : list Q) : Q := (sum l / inject_Z (len l))%Q.

End Py.

Import Py.

(** What the Python runtime and the installed packages fix. *)
Record runtime := {
  (** iteration order of a set of strings: some enumeration of it *)
  set_iter : gset str → list str;
  set_iter_perm : ∀ X, set_iter X ≡ₚ elements X;
  (** [FUZZY_LIB]: [None] when neither rapidfuzz nor fuzzywuzzy imports;
      otherwise [process.extract(word, choices, scorer=fuzz.ratio,
      limit=k)], as pairs of a choice and its ratio *)
  FUZZY_LIB : option (str → gset str → Z → list (str * Q));
  (** the regular-expression class [\w] *)
  re_word_char : N → bool;
  (** [str.isdigit] *)
  str_isdigit : str → bool
}.

(** ** The confusion table and the weighted edit distance
    ([post_process_enhanced.py], module level) *)

Definition CONFUSION_MATRIX : list (str * list str) := [
    ([0x0628], [[0x067E]; [0x062A]; [0x062B]; [0x0646]; [0x06CC]]);
    ([0x067E], [[0x0628]; [0x062A]; [0x062B]; [0x0686]]);
    ([0x062A], [[0x0628]; [0x067E]; [0x062B]; [0x0646]]);
    ([0x062B], [[0x0628]; [0x067E]; [0x062A]]);
    ([0x062C], [[0x0686]; [0x062D]; [0x062E]]);
    ([0x0686], [[0x062C]; [0x062D]; [0x062E]]);
    ([0x062D], [[0x062C]; [0x0686]; [0x062E]]);
    ([0x062E], [[0x062C]; [0x0686]; [0x062D]]);
    ([0x062F], [[0x0630]]);
    ([0x0630], [[0x062F]]);
    ([0x0631], [[0x0632]; [0x0698]; [0x0648]]);
    ([0x0632], [[0x0631]; [0x0698]]);
    ([0x0698], [[0x0632]; [0x0631]]);
    ([0x0633], [[0x0634]]);
    ([0x0634], [[0x0633]]);
    ([0x0635], [[0x0636]]);
    ([0x0636], [[0x0635]]);
    ([0x0637], [[0x0638]]);
    ([0x0638], [[0x0637]]);
    ([0x0639], [[0x063A]]);
    ([0x063A], [[0x0639]]);
    ([0x0641], [[0x0642]]);
    ([0x0642], [[0x0641]]);
    ([0x06A9], [[0x06AF]; [0x0643]]);
    ([0x06AF], [[0x06A9]; [0x0643]]);
    ([0x0644], [[0x0627]; [0x0644; 0x0627]]);
    ([0x0645], [[0x0646]]);
    ([0x0646], [[0x0628]; [0x062A]; [0x062B]; [0x0645]; [0x06CC]]);
    ([0x0648], [[0x0631]; [0x0624]]);
    ([0x0647], [[0x0629]; [0x06C0]; [0x06BE]]);
    ([0x06CC], [[0x064A]; [0x0649]; [0x0626]; [0x0628]; [0x062A]; [0x0646]]);
    ([0x0643], [[0x06A9]; [0x06AF]]);
    ([0x064A], [[0x06CC]; [0x0649]]);
    ([0x0629], [[0x0647]; [0x06C0]]);
    ([0x0623], [[0x0627]; [0x0625]; [0x0622]]);
    ([0x0625], [[0x0627]; [0x0623]; [0x0622]]);
    ([0x0622], [[0x0627]; [0x0623]; [0x0625]]);
    ([0x0624], [[0x0648]; [0x0621]]);
    ([0x0626], [[0x06CC]; [0x0621]]);
    ([0x06F4], [[0x06F5]; [0x0034]]);
    ([0x06F5], [[0x06F4]; [0x0035]]);
    ([0x06F6], [[0x0036]]);
    ([0x0664], [[0x0665]; [0x06F4]; [0x06F5]]);
    ([0x0665], [[0x0664]; [0x06F4]; [0x06F5]]);
    ([0x0666], [[0x06F6]; [0x0036]])
  ]%N.

(** [CONFUSION_MATRIX.get(c)] and [c in CONFUSION_MATRIX]; the literal has no
    repeated key, so the first entry found is the entry of the dict. *)
Fixpoint matrix_get (table : list (str * list str)) (c : str)
  : option (list str) :=
  match table with
  | [] => None
  | (k, confused) :: table' =>
      if decide (k = c) then Some confused else matrix_get table' c
  end.

(** The loop that builds the reverse mapping, for any table:
<<
    for correct_char, confused_chars in table.items():
        for confused in confused_chars:
            rev[confused].add(correct_char)
        rev[correct_char].add(correct_char)
>> *)
Definition set_add (rev : gmap str (gset str)) (k x : str)
  : gmap str (gset str) :=
  <[k := (rev !!! k) ∪ {[x]}]> rev.

Definition reverse_step (rev : gmap str (gset str)) (kv : str * list str)
  : gmap str (gset str) :=
  let rev := foldl (λ rev confused, set_add rev confused kv.1) rev kv.2 in
  set_add rev kv.1 kv.1.

Definition build_reverse (table : list (str * list str))
  : gmap str (gset str) :=
  foldl reverse_step ∅ table.

Definition OCR_MIGHT_PRODUCE : gmap str (gset str) :=
  build_reverse CONFUSION_MATRIX.

(** [confusion_distance]: the substitution cost of two characters. *)
Definition substitution_cost (c1 c2 : N) : Q :=
  if decide (c1 = c2) then 0
  else if bool_decide ([c2] ∈ default [] (matrix_get CONFUSION_MATRIX [c1]))
          || bool_decide ([c1] ∈ default [] (matrix_get CONFUSION_MATRIX [c2]))
       then 0.3
       else 1.

(** The cost matrix [dp]: [dp[i][j]] read and written in place. *)
Definition dp_get (dp : list (list Q)) (i j : nat) : Q :=
  default 0%Q (dp !! i ≫= λ row, row !! j).

Definition dp_set (dp : list (list Q)) (i j : nat) (v : Q) : list (list Q) :=
  alter (λ row, <[j := v]> row) i dp.

Definition dp_cell (word1 word2 : str) (dp : list (list Q)) (i j : nat) : Q :=
  let c1 := word1 !!! (i - 1)%nat in
  let c2 := word2 !!! (j - 1)%nat in
  Py.min3 (dp_get dp (i - 1) j + 1)
          (dp_get dp i (j - 1) + 1)
          (dp_get dp (i - 1) (j - 1) + substitution_cost c1 c2).

Definition dp_base (len1 len2 : nat) : list (list Q) :=
  let dp := replicate (S len1) (replicate (S len2) 0%Q) in
  let dp := foldl (λ dp i, dp_set dp i 0 (inject_Z (Z.of_nat i) * 1))
                  dp (seq 0 (S len1)) in
  foldl (λ dp j, dp_set dp 0 j (inject_Z (Z.of_nat j) * 1)) dp (seq 0 (S len2)).

Definition dp_fill (word1 word2 : str) (dp : list (list Q)) : list (list Q) :=
  foldl (λ dp i,
           foldl (λ dp j, dp_set dp i j (dp_cell word1 word2 dp i j))
                 dp (seq 1 (length word2)))
        dp (seq 1 (length word1)).

Definition confusion_distance (word1 word2 : str) : Q :=
  if decide (word1 = word2) then 0
  else if 3 <? Z.abs (len word1 - len word2)
       then inject_Z (Z.max (len word1) (len word2))
       else
         let dp := dp_fill word1 word2 (dp_base (length word1) (length word2)) in
         dp_get dp (length word1) (length word2).

Definition confusion_similarity (word1 word2 : str) : Q :=
  if decide (word1 = word2) then 100
  else
    let max_len := Z.max (len word1) (len word2) in
    if decide (max_len = 0) then 100
    else
      let distance := confusion_distance word1 word2 in
      Py.max 0 (100 * (1 - distance / inject_Z max_len)).

(** The recurrence the matrix tabulates, on the two prefixes read backwards
    (last character first).  It is used in the proofs only. *)
Fixpoint edit_cost (l1 : list N) : list N → Q :=
  match l1 with
  | [] => λ l2, inject_Z (len l2) * 1
  | a :: l1' =>
      fix inner (l2 : list N) : Q :=
        match l2 with
        | [] => inject_Z (len l1) * 1
        | b :: l2' =>
            Py.min3 (edit_cost l1' l2 + 1)
                    (inner l2' + 1)
                    (edit_cost l1' l2' + substitution_cost a b)
        end
  end%Q.

(** ASCII string literals of the source as code points. *)
Definition lit (s : string) : str :=
  (λ a, N.of_nat (Ascii.nat_of_ascii a)) <$> String.list_ascii_of_string s.

(** [re.sub(r'^[^KEEP]+|[^KEEP]+$', '', word)]: both edge runs of characters
    outside the class are removed. *)
Fixpoint lstrip (keep : N → bool) (word : str) : str :=
  match word with
  | [] => []
  | c :: word' => if keep c then word else lstrip keep word'
  end.

Definition strip_edges (keep : N → bool) (word : str) : str :=
  reverse (lstrip keep (reverse (lstrip keep word))).

Definition arabic_block (c : N) : bool := ((0x0600 <=? c) && (c <=? 0x06FF))%N.
Definition arabic_supplement (c : N) : bool :=
  ((0x0750 <=? c) && (c <=? 0x077F))%N.

(** The string of an [Optional[str]] when it is truthy. *)
Definition nonempty (o : option str) : option str :=
  match o with Some (c :: s) => Some (c :: s) | _ => None end.

(** [sum(following.values())]. *)
Definition sum_values (following : gmap str Z) : Z :=
  map_fold (λ _ n acc, acc + n) 0 following.

(** [min(100, following[w] / max(1, sum(following.values())) * mult)]. *)
Definition ngram_points (following : gmap str Z) (w : str) (mult : Q) : Q :=
  let freq :=
    (inject_Z (count following w) / inject_Z (Z.max 1 (sum_values following)))%Q
  in Py.min 100 (freq * mult).

(** A candidate is a triple [(text, score, debug_info)]. *)
Abbreviation info := (gmap string value).
Abbreviation cand := (str * Q * info)%type.

(** ** [class EnhancedPostProcessor] ([post_process_enhanced.py]) *)

Module EnhancedPostProcessor.

Record t := {
  min_word_length : Z;
  fuzzy_threshold : Q;
  confusion_threshold : Q;
  confidence_threshold : Q;
  context_weight : Q;
  dictionary : gset str;
  word_freq : gmap str Z;
  bigrams : gmap str (gmap str Z);
  total_bigrams : Z
}.

Definition _normalize (self : t) (word : str) : option str :=
  let word := strip_edges arabic_block word in
  if min_word_length self <=? len word then Some word else None.

Definition get_context_score (self : t)
    (prev_word : option str) (word : str) (next_word : option str) : Q :=
  if decide (total_bigrams self = 0) then 50
  else
    let score := 0%Q in
    let count := 0%Z in
    let word_norm :=
      match word with [] => None | _ => _normalize self word end in
    let '(score, count) :=
      match nonempty prev_word with
      | Some prev_word =>
          match nonempty (_normalize self prev_word) with
          | Some prev_norm =>
              match bigrams self !! prev_norm with
              | Some following =>
                  let score :=
                    match nonempty word_norm with
                    | Some word_norm =>
                        if decide (is_Some (following !! word_norm))
                        then (score + ngram_points following word_norm 500)%Q
                        else score
                    | None => score
                    end in
                  (score, count + 1)
              | None => (score, count)
              end
          | None => (score, count)
          end
      | None => (score, count)
      end in
    let '(score, count) :=
      match nonempty next_word, nonempty word_norm with
      | Some next_word, Some word_norm =>
          let next_norm := _normalize self next_word in
          match bigrams self !! word_norm with
          | Some following =>
              let score :=
                match nonempty next_norm with
                | Some next_norm =>
                    if decide (is_Some (following !! next_norm))
                    then (score + ngram_points following next_norm 500)%Q
                    else score
                | None => score
                end in
              (score, count + 1)
          | None => (score, count)
          end
      | _, _ => (score, count)
      end in
    if 0 <? count then (score / inject_Z (Z.max 1 count))%Q else 50.

(** [word[:i] + replacement + word[i+1:]]. *)
Definition substitute (word : str) (i : nat) (replacement : str) : str :=
  take i word ++ replacement ++ drop (S i) word.

(** The set [variants] before it is turned into a list. *)
Definition variant_set (word : str) : gset str :=
  let variants : gset str := {[ word ]} in
  let variants :=
    foldl (λ variants ic,
             match matrix_get CONFUSION_MATRIX [ic.2] with
             | Some replacements =>
                 foldl (λ variants replacement,
                          variants ∪ {[ substitute word ic.1 replacement ]})
                       variants replacements
             | None => variants
             end)
          variants (enumerate word) in
  foldl (λ variants ic,
           match OCR_MIGHT_PRODUCE !! [ic.2] with
           | Some originals =>
               set_fold (λ original variants,
                           variants ∪ {[ substitute word ic.1 original ]})
                        variants originals
           | None => variants
           end)
        variants (enumerate word).

Definition generate_confusion_variants (rt : runtime)
    (word : str) (max_variants : Z) : list str :=
  slice_to (set_iter rt (variant_set word)) max_variants.

(** Step 1 of [find_candidates]: dictionary words among the variants. *)
Definition variant_candidates (rt : runtime) (self : t) (word : str)
  : list cand :=
  foldl (λ candidates variant,
           if bool_decide (variant ∈ dictionary self ∧ variant ≠ word) then
             let score := confusion_similarity word variant in
             if Qle_bool (confusion_threshold self) score then
               candidates ++
                 [(variant, score,
                   {[ "source" := VStr (lit "confusion_variant");
                      "original" := VStr word;
                      "confusion_sim" := VFloat score ]})]
             else candidates
           else candidates)
        [] (generate_confusion_variants rt word 20).

(** Step 2: fuzzy matches, rescored. *)
Definition fuzzy_candidates (rt : runtime) (self : t) (word : str)
    (max_candidates : Z) (candidates : list cand) : list cand :=
  match FUZZY_LIB rt with
  | Some extract =>
      foldl (λ candidates (m : str * Q),
               let (candidate, fuzzy_score) := m in
               if decide (candidate = word) then candidates
               else
                 let conf_score := confusion_similarity word candidate in
                 let combined := (0.4 * fuzzy_score + 0.6 * conf_score)%Q in
                 if Qle_bool (confusion_threshold self) combined then
                   if existsb (λ c : cand,
                                 bool_decide (c.1.1 = candidate)) candidates
                   then candidates
                   else candidates ++
                          [(candidate, combined,
                            {[ "source" := VStr (lit "fuzzy");
                               "fuzzy_score" := VFloat fuzzy_score;
                               "confusion_score" := VFloat conf_score;
                               "combined" := VFloat combined ]})]
                 else candidates)
            candidates (extract word (dictionary self) (max_candidates * 2))
  | None => candidates
  end.

(** Step 3: boost of the candidates that differ from the word where the
    recogniser was unsure. *)
Definition confidence_boost (self : t) (word : str)
    (char_confidences : option (list Q)) (candidates : list cand)
  : list cand :=
  match char_confidences with
  | Some (c0 :: cs) =>
      let char_confidences := c0 :: cs in
      if decide (len char_confidences = len word) then
        let low_conf_positions :=
          omap (λ ic : nat * Q,
                  if Qle_bool (confidence_threshold self) ic.2 then None
                  else Some ic.1)
               (enumerate char_confidences) in
        (λ c : cand,
           let '(candidate, score, info) := c in
           if decide (len candidate = len word) then
             let diff_positions :=
               filter (λ j, (j < length candidate)%nat
                            ∧ word !! j ≠ candidate !! j)
                      (seq 0 (length word)) in
             let overlap :=
               Z.of_nat (size ((list_to_set diff_positions : gset nat)
                               ∩ list_to_set low_conf_positions)) in
             if 0 <? overlap then
               let boost := 5 * overlap in
               (candidate, Py.min 100 (score + inject_Z boost),
                dict_update info
                  {[ "confidence_boost" := VInt boost;
                     "low_conf_positions" :=
                       VList (Z.of_nat <$> low_conf_positions) ]})
             else c
           else c) <$> candidates
      else candidates
  | _ => candidates
  end.

(** The frequency bonus of the last loop. *)
Definition freq_bonus (self : t) (candidate : str) : Z :=
  if 10 <? count (word_freq self) candidate then 3
  else if 100 <? count (word_freq self) candidate then 5
  else 0.

Definition add_freq_bonus (self : t) (c : cand) : cand :=
  let '(candidate, score, info) := c in
  let freq_bonus := freq_bonus self candidate in
  let final_score := Py.min 100 (score + inject_Z freq_bonus) in
  (candidate, final_score,
   dict_update info {[ "freq_bonus" := VInt freq_bonus ]}).

(** The candidates after the sort, before the cut and the bonus. *)
Definition sorted_candidates (rt : runtime) (self : t) (word : str)
    (char_confidences : option (list Q)) (max_candidates : Z)
  : list cand :=
  let candidates := variant_candidates rt self word in
  let candidates := fuzzy_candidates rt self word max_candidates candidates in
  let candidates := confidence_boost self word char_confidences candidates in
  sort_by (λ x : cand, - x.1.2)%Q candidates.

Definition find_candidates (rt : runtime) (self : t) (word : str)
    (char_confidences : option (list Q)) (max_candidates : Z)
  : list cand :=
  if decide (dictionary self = ∅) then
    [(word, 100%Q, {[ "source" := VStr (lit "no_dict") ]})]
  else if decide (word ∈ dictionary self) then
    [(word, 100%Q, {[ "source" := VStr (lit "in_dict") ]})]
  else
    let candidates :=
      sorted_candidates rt self word char_confidences max_candidates in
    let final_candidates :=
      add_freq_bonus self <$> slice_to candidates max_candidates in
    match final_candidates with
    | [] => [(word, 0%Q, {[ "source" := VStr (lit "no_match") ]})]
    | _ => final_candidates
    end.

(** The loop of [correct_word] over the candidates; the state is
    [(best_candidate, best_score, best_info)]. *)
Definition pick_best (self : t) (prev_word next_word : option str)
    (word : str) (candidates : list cand)
  : str * Q * option info :=
  foldl (λ (best : str * Q * option info) (c : cand),
           let '(best_candidate, best_score, best_info) := best in
           let '(candidate, base_score, info) := c in
           let context_score :=
             get_context_score self prev_word candidate next_word in
           let final_score :=
             ((1 - context_weight self) * base_score
              + context_weight self * context_score)%Q in
           if Qlt_le_dec best_score final_score then
             (candidate, final_score,
              Some (dict_update info
                      {[ "base_score" := VFloat base_score;
                         "context_score" := VFloat context_score;
                         "final_score" := VFloat final_score;
                         "prev_word" := opt_str prev_word;
                         "next_word" := opt_str next_word ]}))
           else best)
        (word, 0%Q, None) candidates.

Definition correct_word (rt : runtime) (self : t) (word : str)
    (char_confidences : option (list Q)) (prev_word next_word : option str)
  : str * bool * option info :=
  if len word <? min_word_length self then (word, false, None)
  else if decide (word ∈ dictionary self) then (word, false, None)
  else
    let candidates := find_candidates rt self word char_confidences 10 in
    match candidates with
    | [] => (word, false, None)
    | (_, score0, _) :: _ =>
        if Qeq_bool score0 0 then (word, false, None)
        else
          let '(best_candidate, best_score, best_info) :=
            pick_best self prev_word next_word word candidates in
          let threshold := confusion_threshold self in
          let threshold :=
            match char_confidences with
            | Some (c0 :: cs) =>
                let avg_conf := mean (c0 :: cs) in
                if Qle_bool (confidence_threshold self) avg_conf
                then threshold
                else Py.max 50 (threshold - 10)
            | _ => threshold
            end in
          let was_corrected :=
            bool_decide (best_candidate ≠ word)
            && Qle_bool threshold best_score in
          (best_candidate, was_corrected,
           if was_corrected then best_info else None)
    end.

(** Truth value of [info] in [if was_corrected and info]. *)
Definition info_truthy (o : option info) : option info :=
  match o with
  | Some d => if decide (d = ∅) then None else Some d
  | None => None
  end.

(** [words[i-1] if i > 0 else None] and
    [words[i+1] if i < len(words) - 1 else None]. *)
Definition prev_of (words : list str) (i : nat) : option str :=
  if (0 <? i)%nat then words !! (i - 1)%nat else None.
Definition next_of (words : list str) (i : nat) : option str :=
  if Z.of_nat i <? len words - 1 then words !! (i + 1)%nat else None.

Definition process_text (rt : runtime) (self : t) (text : str)
  : str * list info :=
  let words := split text in
  let '(corrected_words, corrections) :=
    foldl (λ (acc : list str * list info) (iw : nat * str),
             let '(corrected_words, corrections) := acc in
             let (i, word) := iw in
             let prev_word := prev_of words i in
             let next_word := next_of words i in
             let '(corrected, was_corrected, info) :=
               correct_word rt self word None prev_word next_word in
             let corrected_words := corrected_words ++ [corrected] in
             match (if was_corrected then info_truthy info else None) with
             | Some info =>
                 let correction :=
                   dict_update {[ "original" := VStr word;
                                  "corrected" := VStr corrected ]} info in
                 (corrected_words, corrections ++ [correction])
             | None => (corrected_words, corrections)
             end)
          ([], []) (enumerate words) in
  (join corrected_words, corrections).

Definition process_with_confidence (rt : runtime) (self : t) (text : str)
    (char_confidences : list (list Q)) : str * list info :=
  let words := split text in
  if decide (len char_confidences ≠ len words) then process_text rt self text
  else
    let '(corrected_words, corrections) :=
      foldl (λ (acc : list str * list info) (iwc : nat * (str * list Q)),
               let '(corrected_words, corrections) := acc in
               let '(i, (word, word_conf)) := iwc in
               let prev_word := prev_of words i in
               let next_word := next_of words i in
               let '(corrected, was_corrected, info) :=
                 correct_word rt self word (Some word_conf)
                              prev_word next_word in
               let corrected_words := corrected_words ++ [corrected] in
               match (if was_corrected then info_truthy info else None) with
               | Some info =>
                   let correction :=
                     dict_update
                       {[ "original" := VStr word;
                          "corrected" := VStr corrected;
                          "word_confidence" :=
                            match word_conf with
                            | [] => VNone
                            | _ => VFloat (mean word_conf)
                            end ]} info in
                   (corrected_words, corrections ++ [correction])
               | None => (corrected_words, corrections)
               end)
            ([], []) (enumerate (zip words char_confidences)) in
    (join corrected_words, corrections).

End EnhancedPostProcessor.

(** ** [class ContextAwarePostProcessor] ([post_process_context.py]) *)

Module ContextAwarePostProcessor.

Record t := {
  min_word_length : Z;
  fuzzy_threshold : Q;
  context_weight : Q;
  max_candidates : Z;
  dictionary : gset str;
  word_freq : gmap str Z;
  bigrams : gmap str (gmap str Z);
  trigrams : gmap str (gmap str Z);
  total_bigrams : Z;
  total_trigrams : Z
}.

Definition _normalize (rt : runtime) (self : t) (word : str) : option str :=
  let word :=
    strip_edges (λ c, re_word_char rt c || arabic_block c) word in
  if min_word_length self <=? len word then Some word else None.

Definition get_bigram_score (rt : runtime) (self : t)
    (prev_word : option str) (word : str) (next_word : option str)
    (prev_prev_word : option str) : Q :=
  if decide (total_bigrams self = 0) then 50
  else
    let score := 0%Q in
    let count := 0%Z in
    let word_norm :=
      match word with [] => None | _ => _normalize rt self word end in
    let '(score, count) :=
      match nonempty prev_word with
      | Some prev_word =>
          match nonempty (_normalize rt self prev_word) with
          | Some prev_norm =>
              match bigrams self !! prev_norm with
              | Some following =>
                  let score :=
                    match nonempty word_norm with
                    | Some word_norm =>
                        if decide (is_Some (following !! word_norm))
                        then (score + ngram_points following word_norm 500)%Q
                        else score
                    | None => score
                    end in
                  (score, count + 1)
              | None => (score, count)
              end
          | None => (score, count)
          end
      | None => (score, count)
      end in
    let '(score, count) :=
      match nonempty next_word, nonempty word_norm with
      | Some next_word, Some word_norm =>
          let next_norm := _normalize rt self next_word in
          match bigrams self !! word_norm with
          | Some following =>
              let score :=
                match nonempty next_norm with
                | Some next_norm =>
                    if decide (is_Some (following !! next_norm))
                    then (score + ngram_points following next_norm 500)%Q
                    else score
                | None => score
                end in
              (score, count + 1)
          | None => (score, count)
          end
      | _, _ => (score, count)
      end in
    let '(score, count) :=
      if 0 <? total_trigrams self then
        match nonempty prev_prev_word, nonempty prev_word with
        | Some prev_prev_word, Some prev_word =>
            match nonempty (_normalize rt self prev_prev_word),
                  nonempty (_normalize rt self prev_word) with
            | Some prev_prev_norm, Some prev_norm =>
                let trigram_key := prev_prev_norm ++ lit "|" ++ prev_norm in
                match trigrams self !! trigram_key with
                | Some following =>
                    match nonempty word_norm with
                    | Some word_norm =>
                        if decide (is_Some (following !! word_norm))
                        then ((score + ngram_points following word_norm 800)%Q,
                              count + 1)
                        else (score, count)
                    | None => (score, count)
                    end
                | None => (score, count)
                end
            | _, _ => (score, count)
            end
        | _, _ => (score, count)
        end
      else (score, count) in
    if 0 <? count then (score / inject_Z (Z.max 1 count))%Q else 50.

End ContextAwarePostProcessor.

(** ** [class CorpusProcessor] ([build_corpus_model.py]) *)

Module CorpusProcessor.

Record t := {
  word_freq : gmap str Z;
  bigrams : gmap str (gmap str Z);
  trigrams : gmap str (gmap str Z);
  total_words : Z;
  total_bigrams : Z;
  total_trigrams : Z;
  files_processed : Z
}.

(** [CorpusProcessor()]. *)
Definition __init__ : t :=
  {| word_freq := ∅; bigrams := ∅; trigrams := ∅;
     total_words := 0; total_bigrams := 0; total_trigrams := 0;
     files_processed := 0 |}.

(** The dictionary that [save_model] pickles and [merge_with_existing]
    loads.  The three count maps are read with [data.get(key, {})], so
    each may be absent. *)
Record snapshot := {
  snap_word_freq : option (gmap str Z);
  snap_bigrams : option (gmap str (gmap str Z));
  snap_trigrams : option (gmap str (gmap str Z));
  snap_total_words : Z;
  snap_total_bigrams : Z;
  snap_total_trigrams : Z
}.

Definition save_model (self : t) : snapshot :=
  {| snap_word_freq := Some (word_freq self);
     snap_bigrams := Some (bigrams self);
     snap_trigrams := Some (trigrams self);
     snap_total_words := total_words self;
     snap_total_bigrams := total_bigrams self;
     snap_total_trigrams := total_trigrams self |}.

(** [counter[k] += n] and [table[k1][k2] += n] on a
    [defaultdict(Counter)]. *)
Definition add_count (c : gmap str Z) (k : str) (n : Z) : gmap str Z :=
  <[k := count c k + n]> c.

Definition count2 (table : gmap str (gmap str Z)) (k1 k2 : str) : Z :=
  count (table !!! k1) k2.

Definition add_count2 (table : gmap str (gmap str Z)) (k1 k2 : str) (n : Z)
  : gmap str (gmap str Z) :=
  <[k1 := add_count (table !!! k1) k2 n]> table.

(** The three statements of the loop bodies. *)
Definition add_word (word : str) (freq : Z) (self : t) : t :=
  {| word_freq := add_count (word_freq self) word freq;
     bigrams := bigrams self; trigrams := trigrams self;
     total_words := total_words self + freq;
     total_bigrams := total_bigrams self;
     total_trigrams := total_trigrams self;
     files_processed := files_processed self |}.

Definition add_bigram (w1 w2 : str) (n : Z) (self : t) : t :=
  {| word_freq := word_freq self;
     bigrams := add_count2 (bigrams self) w1 w2 n;
     trigrams := trigrams self;
     total_words := total_words self;
     total_bigrams := total_bigrams self + n;
     total_trigrams := total_trigrams self;
     files_processed := files_processed self |}.

Definition add_trigram (key w3 : str) (n : Z) (self : t) : t :=
  {| word_freq := word_freq self;
     bigrams := bigrams self;
     trigrams := add_count2 (trigrams self) key w3 n;
     total_words := total_words self;
     total_bigrams := total_bigrams self;
     total_trigrams := total_trigrams self + n;
     files_processed := files_processed self |}.

(** [merge_with_existing]; [file] is [None] when the path does not
    exist. *)
Definition merge_with_existing (self : t) (file : option snapshot) : t :=
  match file with
  | None => self
  | Some data =>
      let self :=
        map_fold add_word self (default ∅ (snap_word_freq data)) in
      let self :=
        map_fold (λ w1 following self,
                    map_fold (λ w2 count self, add_bigram w1 w2 count self)
                             self following)
                 self (default ∅ (snap_bigrams data)) in
      map_fold (λ key following self,
                  map_fold (λ w3 count self, add_trigram key w3 count self)
                           self following)
               self (default ∅ (snap_trigrams data))
  end.

Definition normalize_word (rt : runtime) (word : str) : option str :=
  match word with
  | [] => None
  | _ =>
      let keep c := re_word_char rt c || arabic_block c
                    || arabic_supplement c in
      let word := lstrip keep word in
      let word := reverse (lstrip keep (reverse word)) in
      if (len word <? 2) || str_isdigit rt word then None else Some word
  end.

(** [process_text]: the three loops, over the words, over the positions
    of the bigrams and over those of the trigrams. *)
Definition process_text (rt : runtime) (self : t) (text : str) : t :=
  let words := split text in
  let '(normalized, self) :=
    foldl (λ (acc : list str * t) w,
             match nonempty (normalize_word rt w) with
             | Some norm => (acc.1 ++ [norm], add_word norm 1 acc.2)
             | None => acc
             end)
          ([], self) words in
  let self :=
    foldl (λ self i,
             add_bigram (normalized !!! i) (normalized !!! (i + 1)%nat) 1 self)
          self (seq 0 (length normalized - 1)) in
  foldl (λ self i,
           let key := normalized !!! i ++ lit "|"
                      ++ normalized !!! (i + 1)%nat in
           add_trigram key (normalized !!! (i + 2)%nat) 1 self)
        self (seq 0 (length normalized - 2)).

(** Sum of all counts of a table of [Counter]s. *)
Definition sum_values2 (table : gmap str (gmap str Z)) : Z :=
  map_fold (λ _ following acc, acc + sum_values following) 0 table.

(** The running totals of a snapshot are the sums of its counts. *)
Definition consistent (data : snapshot) : Prop :=
  snap_total_words data = sum_values (default ∅ (snap_word_freq data))
  ∧ snap_total_bigrams data = sum_values2 (default ∅ (snap_bigrams data))
  ∧ snap_total_trigrams data = sum_values2 (default ∅ (snap_trigrams data)).

(** The snapshot of a model that has seen no text. *)
Definition empty_snapshot : snapshot := save_model __init__.

End CorpusProcessor.

(** ** Concrete data used in the examples *)

(** A runtime with no fuzzy-matching library installed, where a set is
    iterated in the order of [elements], and where [\w] and [isdigit] are
    restricted to ASCII. *)
Definition ascii_runtime : runtime :=
  {| set_iter := elements;
     set_iter_perm := λ X, reflexivity (elements X);
     FUZZY_LIB := None;
     re_word_char := λ c,
       ((0x30 <=? c) && (c <=? 0x39) || (0x41 <=? c) && (c <=? 0x5A)
        || (c =? 0x5F) || (0x61 <=? c) && (c <=? 0x7A))%N;
     str_isdigit := λ s,
       match s with
       | [] => false
       | _ => forallb (λ c, (0x30 <=? c) && (c <=? 0x39))%N s
       end |}.

(** The constructor defaults of [EnhancedPostProcessor], with the given
    dictionary and frequencies and no context model. *)
Definition enhanced_default (dict : gset str) (freq : gmap str Z)
  : EnhancedPostProcessor.t :=
  {| EnhancedPostProcessor.min_word_length := 2;
     EnhancedPostProcessor.fuzzy_threshold := 70;
     EnhancedPostProcessor.confusion_threshold := 65;
     EnhancedPostProcessor.confidence_threshold := 0.8;
     EnhancedPostProcessor.context_weight := 0.2;
     EnhancedPostProcessor.dictionary := dict;
     EnhancedPostProcessor.word_freq := freq;
     EnhancedPostProcessor.bigrams := ∅;
     EnhancedPostProcessor.total_bigrams := 0 |}.

(** The words of the scenario of the specification: the dictionary word
    "ketab" written with the Persian kaf (U+06A9) and its OCR reading with the
    Arabic kaf (U+0643). *)
Definition ketab : str := [0x06A9; 0x062A; 0x0627; 0x0628]%N.
Definition ketab_ocr : str := [0x0643; 0x062A; 0x0627; 0x0628]%N.

(** A word of 22 characters, lam (U+0644), sin (U+0633) and twenty times
    the letter a, with two of its confusion variants: sin read as shin
    (U+0634), and lam read as lam-alef. *)
Definition long_word : str := [0x0644; 0x0633]%N ++ replicate 20 0x61%N.
Definition long_shin : str := [0x0644; 0x0634]%N ++ replicate 20 0x61%N.
Definition long_lam_alef : str :=
  [0x0644; 0x0627; 0x0633]%N ++ replicate 20 0x61%N.

(** A processor whose dictionary holds the two variants; only the second
    is frequent in the corpus. *)
Definition two_variants : EnhancedPostProcessor.t :=
  enhanced_default {[ long_shin; long_lam_alef ]} {[ long_lam_alef := 11 ]}.

(** The score of a candidate, as a reduced fraction. *)
Definition score_of (c : cand) : Q := Qred c.1.2.

(** A processor whose one dictionary word occurs 101 times in the
    corpus. *)
Definition frequent_ketab : EnhancedPostProcessor.t :=
  enhanced_default {[ ketab ]} {[ ketab := 101 ]}.

(** * Properties *)

(** ** The reverse confusion mapping *)

Section reverse_mapping.
Implicit Types (rev : gmap str (gset str)) (k x : str).

Lemma set_add_mono rev k' x' k x :
  x ∈ rev !!! k → x ∈ set_add rev k' x' !!! k.
Proof.
  intros Hx. unfold set_add.
  destruct (decide (k' = k)) as [->|Hne].
  - rewrite lookup_total_insert_eq. set_solver.
  - by rewrite lookup_total_insert_ne.
Qed.

Lemma set_add_self rev k x : x ∈ set_add rev k x !!! k.
Proof. unfold set_add. rewrite lookup_total_insert_eq. set_solver. Qed.

Lemma inner_loop_mono confused_chars correct rev k x :
  x ∈ rev !!! k →
  x ∈ foldl (λ rev confused, set_add rev confused correct)
            rev confused_chars !!! k.
Proof.
  revert rev. induction confused_chars as [|c cs IH]; intros rev Hx; [done|].
  simpl. apply IH. by apply set_add_mono.
Qed.

Lemma reverse_step_mono rev kv k x :
  x ∈ rev !!! k → x ∈ reverse_step rev kv !!! k.
Proof.
  intros Hx. unfold reverse_step.
  by apply set_add_mono, inner_loop_mono.
Qed.

Lemma reverse_step_self rev kv : kv.1 ∈ reverse_step rev kv !!! kv.1.
Proof. apply set_add_self. Qed.

Lemma reverse_loop_mono table rev k x :
  x ∈ rev !!! k → x ∈ foldl reverse_step rev table !!! k.
Proof.
  revert rev. induction table as [|kv table IH]; intros rev Hx; [done|].
  simpl. by apply IH, reverse_step_mono.
Qed.

Lemma reverse_loop_key table rev c :
  c ∈ table.*1 → c ∈ foldl reverse_step rev table !!! c.
Proof.
  revert rev. induction table as [|kv table IH]; intros rev Hc.
  - by apply elem_of_nil in Hc.
  - simpl in *. apply elem_of_cons in Hc as [->|Hc].
    + apply reverse_loop_mono, reverse_step_self.
    + by apply IH.
Qed.

Lemma matrix_get_Some table c confused :
  matrix_get table c = Some confused → (c, confused) ∈ table.
Proof.
  induction table as [|[k v] table IH]; simpl; [done|].
  case_decide as Hk.
  - intros [= <-]. subst. apply elem_of_cons. by left.
  - intros H. apply elem_of_cons. right. by apply IH.
Qed.

Lemma matrix_get_is_Some table c :
  is_Some (matrix_get table c) ↔ c ∈ table.*1.
Proof.
  induction table as [|[k v] table IH]; simpl.
  - split; [by intros [? ?]|]. intros H. by apply elem_of_nil in H.
  - case_decide as Hk.
    + subst. split; [intros _; apply elem_of_cons; by left | by eauto].
    + rewrite IH, elem_of_cons. split; [by right|]. by intros [->|?].
Qed.
End reverse_mapping.

(** C9, as stated, fails: alef (U+0627) occurs in the table as a confusable
    value of lam, and the reverse mapping of alef does not contain alef. *)
Lemma C9_value_only_char_not_in_own_set :
  [0x0627%N] ∈ default [] (matrix_get CONFUSION_MATRIX [0x0644%N])
  ∧ [0x0627%N] ∉ OCR_MIGHT_PRODUCE !!! [0x0627%N].
Proof.
  split; apply (bool_decide_unpack _); by vm_compute.
Qed.

(** C9 (amended): every character that is a key of the confusion table
    belongs to its own set in the reverse mapping. *)
Theorem C9_reverse_mapping_contains_keys (c : str) :
  c ∈ CONFUSION_MATRIX.*1 → c ∈ OCR_MIGHT_PRODUCE !!! c.
Proof. apply reverse_loop_key. Qed.

Lemma C9_reverse_mapping_contains_keys_witness :
  [0x0644%N] ∈ CONFUSION_MATRIX.*1
  ∧ [0x0644%N] ∈ OCR_MIGHT_PRODUCE !!! [0x0644%N].
Proof.
  assert (H : [0x0644%N] ∈ CONFUSION_MATRIX.*1)
    by (apply (bool_decide_unpack _); vm_compute; exact I).
  split; [exact H | exact (C9_reverse_mapping_contains_keys _ H)].
Defined.


(** ** The frequency bonus of [find_candidates] *)

Lemma freq_bonus_spec (self : EnhancedPostProcessor.t) (candidate : str) :
  EnhancedPostProcessor.freq_bonus self candidate
  = if 10 <? count (EnhancedPostProcessor.word_freq self) candidate
    then 3 else 0.
Proof.
  unfold EnhancedPostProcessor.freq_bonus.
  destruct (10 <? _) eqn:H10; [done|].
  destruct (100 <? _) eqn:H100; [lia|done].
Qed.

Lemma add_freq_bonus_lookup (self : EnhancedPostProcessor.t) (c : cand) :
  (EnhancedPostProcessor.add_freq_bonus self c).1.1 = c.1.1
  ∧ (EnhancedPostProcessor.add_freq_bonus self c).2 !! "freq_bonus"
    = Some (VInt (EnhancedPostProcessor.freq_bonus self c.1.1)).
Proof.
  destruct c as [[candidate score] i]. simpl. split; [done|].
  unfold dict_update. apply lookup_union_Some_l, lookup_singleton_eq.
Qed.

(** C10: every entry that [find_candidates] returns is either one of the
    fall-back entries for the word itself, which carry no bonus, or one of
    the sorted candidates with the bonus applied: its score is
    [min(100, score + bonus)] and its debug info records [bonus], where
    [bonus] is 3 when the corpus frequency of the candidate exceeds 10
    (also when it exceeds 100) and 0 otherwise.  No entry receives 5,
    although the source has a branch that assigns 5. *)
Theorem C10_freq_bonus_is_three_or_zero
    (rt : runtime) (self : EnhancedPostProcessor.t) (word : str)
    (char_confidences : option (list Q)) (max_candidates : Z)
    (candidate : str) (score : Q) (i : info) :
  (candidate, score, i)
    ∈ EnhancedPostProcessor.find_candidates rt self word char_confidences
        max_candidates →
  (∃ (score0 : Q) (info0 : info) (bonus : Z),
     (candidate, score0, info0)
       ∈ slice_to (EnhancedPostProcessor.sorted_candidates rt self word
                     char_confidences max_candidates) max_candidates
     ∧ bonus = (if 10 <? count (EnhancedPostProcessor.word_freq self) candidate
                then 3 else 0)
     ∧ (100 < count (EnhancedPostProcessor.word_freq self) candidate →
        bonus = 3)
     ∧ bonus ≠ 5
     ∧ score = Py.min 100 (score0 + inject_Z bonus)
     ∧ i = dict_update info0 {[ "freq_bonus" := VInt bonus ]}
     ∧ i !! "freq_bonus" = Some (VInt bonus))
  ∨ (candidate = word
     ∧ i !! "freq_bonus" = None
     ∧ (score = 100%Q ∨ score = 0%Q)).
Proof.
  intros Hin. unfold EnhancedPostProcessor.find_candidates in Hin.
  repeat case_decide.
  - apply list_elem_of_singleton in Hin as [= -> -> ->].
    right. split; [done|]. split; [by rewrite lookup_singleton_ne|by left].
  - apply list_elem_of_singleton in Hin as [= -> -> ->].
    right. split; [done|]. split; [by rewrite lookup_singleton_ne|by left].
  - destruct (EnhancedPostProcessor.add_freq_bonus self <$> _)
      as [|c0 cs] eqn:Hfinal.
    + apply list_elem_of_singleton in Hin as [= -> -> ->].
      right. split; [done|]. split; [by rewrite lookup_singleton_ne|by right].
    + rewrite <- Hfinal in Hin.
      apply list_elem_of_fmap in Hin as ([[c s0] i0] & Hc & Hslice).
      unfold EnhancedPostProcessor.add_freq_bonus in Hc.
      rewrite freq_bonus_spec in Hc. injection Hc as -> -> ->.
      left. exists s0, i0,
        (if 10 <? count (EnhancedPostProcessor.word_freq self) c
         then 3 else 0).
      split; [done|]. split; [done|].
      split; [intros Hfreq; by rewrite (proj2 (Z.ltb_lt 10 _)) by lia|].
      split; [by destruct (10 <? _)|].
      split; [done|]. split; [done|].
      unfold dict_update. apply lookup_union_Some_l, lookup_singleton_eq.
Qed.

Lemma C10_freq_bonus_is_three_or_zero_witness :
  ∃ (score score0 : Q) (i info0 : info),
    (ketab, score, i)
      ∈ EnhancedPostProcessor.find_candidates ascii_runtime frequent_ketab
          ketab_ocr None 10
    ∧ 100 < count (EnhancedPostProcessor.word_freq frequent_ketab) ketab
    ∧ (ketab, score0, info0)
        ∈ slice_to (EnhancedPostProcessor.sorted_candidates ascii_runtime
                      frequent_ketab ketab_ocr None 10) 10
    ∧ score = Py.min 100 (score0 + inject_Z 3)
    ∧ i !! "freq_bonus" = Some (VInt 3)
    ∧ (score == 95.5)%Q.
Proof.
  destruct (EnhancedPostProcessor.find_candidates ascii_runtime frequent_ketab
              ketab_ocr None 10)
    as [|[[candidate score] i] rest] eqn:E; [by vm_compute in E|].
  assert (Hc : candidate = ketab ∧ (score == 95.5)%Q).
  { vm_compute in E. injection E as <- <- <- <-.
    split; [reflexivity|by vm_compute]. }
  destruct Hc as [-> Hscore].
  assert (Hin : (ketab, score, i)
                  ∈ EnhancedPostProcessor.find_candidates ascii_runtime
                      frequent_ketab ketab_ocr None 10).
  { rewrite E. apply list_elem_of_here. }
  destruct (C10_freq_bonus_is_three_or_zero _ _ _ _ _ _ _ _ Hin)
    as [(score0 & info0 & bonus & Hs0 & Hb & _ & _ & Hsc & _ & Hv)
       |[Hword _]]; [|discriminate Hword].
  assert (bonus = 3) as -> by (rewrite Hb; reflexivity).
  exists score, score0, i, info0.
  split; [apply list_elem_of_here|].
  split; [by vm_compute|]. split; [exact Hs0|].
  split; [exact Hsc|]. split; [exact Hv|exact Hscore].
Defined.


(** ** Neutral context score *)

(** C8: with an empty context model (no bigram counted), or with both
    neighbours absent, the context score of a candidate is exactly 50, for
    the scorer of [EnhancedPostProcessor] and for the one of
    [ContextAwarePostProcessor] alike. *)
Theorem C8_context_score_neutral
    (rt : runtime) (enhanced : EnhancedPostProcessor.t)
    (context : ContextAwarePostProcessor.t)
    (prev_word next_word prev_prev_word : option str) (word : str) :
  (EnhancedPostProcessor.total_bigrams enhanced = 0
   ∧ ContextAwarePostProcessor.total_bigrams context = 0)
  ∨ (nonempty prev_word = None ∧ nonempty next_word = None) →
  EnhancedPostProcessor.get_context_score enhanced prev_word word next_word
  = 50%Q
  ∧ ContextAwarePostProcessor.get_bigram_score rt context prev_word word
      next_word prev_prev_word
    = 50%Q.
Proof.
  unfold EnhancedPostProcessor.get_context_score,
    ContextAwarePostProcessor.get_bigram_score.
  intros [[He Hc]|[Hp Hn]].
  - rewrite !decide_True by done. done.
  - rewrite Hp, Hn.
    split; case_decide; try done.
    by destruct (0 <? ContextAwarePostProcessor.total_trigrams context),
      (nonempty prev_prev_word).
Qed.

Lemma C8_context_score_neutral_witness :
  EnhancedPostProcessor.get_context_score (enhanced_default {[ ketab ]} ∅)
    None ketab None
  = 50%Q
  ∧ ContextAwarePostProcessor.get_bigram_score ascii_runtime
      {| ContextAwarePostProcessor.min_word_length := 2;
         ContextAwarePostProcessor.fuzzy_threshold := 75;
         ContextAwarePostProcessor.context_weight := 0.3;
         ContextAwarePostProcessor.max_candidates := 10;
         ContextAwarePostProcessor.dictionary := {[ ketab ]};
         ContextAwarePostProcessor.word_freq := ∅;
         ContextAwarePostProcessor.bigrams := {[ ketab := {[ ketab := 1 ]} ]};
         ContextAwarePostProcessor.trigrams := ∅;
         ContextAwarePostProcessor.total_bigrams := 1;
         ContextAwarePostProcessor.total_trigrams := 0 |}
      None ketab None (Some ketab)
    = 50%Q.
Proof.
  apply C8_context_score_neutral. right. split; reflexivity.
Defined.

(** ** Degradation of [process_with_confidence] *)

(** C7: when the number of confidence arrays differs from the number of
    words of the text, [process_with_confidence] returns what [process_text]
    returns on the text. *)
Theorem C7_alignment_mismatch_falls_back
    (rt : runtime) (self : EnhancedPostProcessor.t) (text : str)
    (char_confidences : list (list Q)) :
  len char_confidences ≠ len (split text) →
  EnhancedPostProcessor.process_with_confidence rt self text char_confidences
  = EnhancedPostProcessor.process_text rt self text.
Proof.
  intros Hlen. unfold EnhancedPostProcessor.process_with_confidence.
  by rewrite decide_True.
Qed.

Lemma C7_alignment_mismatch_falls_back_witness :
  EnhancedPostProcessor.process_with_confidence ascii_runtime
    (enhanced_default {[ ketab ]} ∅) ketab_ocr [[0.9]; [0.5]]%Q
  = EnhancedPostProcessor.process_text ascii_runtime
      (enhanced_default {[ ketab ]} ∅) ketab_ocr.
Proof.
  apply C7_alignment_mismatch_falls_back. vm_compute. discriminate.
Defined.

(** ** [correct_word] *)

Lemma correct_word_in_dictionary
    (rt : runtime) (self : EnhancedPostProcessor.t) (word : str)
    (char_confidences : option (list Q)) (prev_word next_word : option str) :
  word ∈ EnhancedPostProcessor.dictionary self →
  EnhancedPostProcessor.correct_word rt self word char_confidences
    prev_word next_word
  = (word, false, None).
Proof.
  intros Hin. unfold EnhancedPostProcessor.correct_word.
  destruct (_ <? _); [done|]. by rewrite decide_True.
Qed.

(** C2, as stated, fails: with an empty dictionary the third component of
    the result is [None], not the dictionary [{'source': 'no_dict'}]. *)
Lemma C2_no_dict_info_is_not_returned :
  EnhancedPostProcessor.dictionary (enhanced_default ∅ ∅) = ∅
  ∧ EnhancedPostProcessor.correct_word ascii_runtime (enhanced_default ∅ ∅)
      ketab_ocr None None None
    ≠ (ketab_ocr, false, Some {[ "source" := VStr (lit "no_dict") ]}).
Proof.
  split; [reflexivity|]. intros H. vm_compute in H. discriminate H.
Qed.

(** C2 (amended): with an empty dictionary [correct_word] returns
    [(word, False, None)] for every word, every confidence list and every
    pair of neighbours; the function is total, so nothing is raised. *)
Theorem C2_empty_dictionary_keeps_word
    (rt : runtime) (self : EnhancedPostProcessor.t) (word : str)
    (char_confidences : option (list Q)) (prev_word next_word : option str) :
  EnhancedPostProcessor.dictionary self = ∅ →
  EnhancedPostProcessor.correct_word rt self word char_confidences
    prev_word next_word
  = (word, false, None).
Proof.
  intros Hempty. unfold EnhancedPostProcessor.correct_word.
  destruct (_ <? _); [done|].
  rewrite decide_False by (rewrite Hempty; set_solver).
  unfold EnhancedPostProcessor.find_candidates.
  rewrite decide_True by done.
  change (Qeq_bool 100 0) with false. cbv iota.
  unfold EnhancedPostProcessor.pick_best. simpl foldl.
  destruct (Qlt_le_dec _ _); simpl.
  all: rewrite bool_decide_false by (by intros []).
  all: done.
Qed.

Lemma C2_empty_dictionary_keeps_word_witness :
  EnhancedPostProcessor.correct_word ascii_runtime (enhanced_default ∅ ∅)
    ketab_ocr (Some [0.9; 0.4; 0.9; 0.9]%Q) None (Some ketab)
  = (ketab_ocr, false, None).
Proof.
  apply C2_empty_dictionary_keeps_word. reflexivity.
Defined.

(** ** [process_text] on a text of dictionary words *)

Lemma enumerate_snd {A} (f : nat → nat) (l : list A) :
  (imap (λ i x, (f i, x)) l).*2 = l.
Proof.
  revert f. induction l as [|x l IH]; intros f; [done|].
  simpl. f_equal. apply (IH (f ∘ S)).
Qed.

(** One word followed by nothing or by a whitespace character. *)
Lemma split_word (w rest : str) :
  w ≠ [] →
  Forall (λ c, is_space c = false) w →
  match rest with [] => True | d :: _ => is_space d = true end →
  split (w ++ rest) = w :: split rest.
Proof.
  induction w as [|c w IH]; [done|]. intros _ Hw Hrest.
  apply Forall_cons in Hw as [Hc Hw].
  destruct w as [|c' w].
  - simpl. rewrite Hc. destruct rest as [|d rest]; [done|]. by rewrite Hrest.
  - change (split ((c :: c' :: w) ++ rest))
      with (if is_space c then split ((c' :: w) ++ rest)
            else if is_space c' then [c] :: split ((c' :: w) ++ rest)
                 else match split ((c' :: w) ++ rest) with
                      | w0 :: ws => (c :: w0) :: ws
                      | [] => [[c]]
                      end).
    rewrite Hc. pose proof Hw as Hw'. apply Forall_cons in Hw' as [Hc' _].
    rewrite Hc'. by rewrite IH.
Qed.

Lemma split_join (ws : list str) :
  Forall (λ w, w ≠ [] ∧ Forall (λ c, is_space c = false) w) ws →
  split (join ws) = ws.
Proof.
  induction ws as [|w ws IH]; [done|]. intros Hws.
  apply Forall_cons in Hws as [[Hne Hw] Hws].
  destruct ws as [|w2 ws].
  - simpl. rewrite <- (app_nil_r w) at 1. by rewrite split_word.
  - change (join (w :: w2 :: ws)) with (w ++ 0x20%N :: join (w2 :: ws)).
    rewrite split_word by done.
    change (split (32%N :: join (w2 :: ws))) with (split (join (w2 :: ws))).
    by rewrite IH.
Qed.

(** The loop of [process_text] when every word it meets is accepted. *)
Lemma process_text_loop_accepts
    (rt : runtime) (self : EnhancedPostProcessor.t) (words : list str)
    (todo : list (nat * str)) (corrected_words : list str)
    (corrections : list info) :
  (∀ w, w ∈ todo.*2 → w ∈ EnhancedPostProcessor.dictionary self) →
  foldl (λ (acc : list str * list info) (iw : nat * str),
           let '(corrected_words, corrections) := acc in
           let (i, word) := iw in
           let prev_word := EnhancedPostProcessor.prev_of words i in
           let next_word := EnhancedPostProcessor.next_of words i in
           let '(corrected, was_corrected, info) :=
             EnhancedPostProcessor.correct_word rt self word None
               prev_word next_word in
           let corrected_words := corrected_words ++ [corrected] in
           match (if was_corrected
                  then EnhancedPostProcessor.info_truthy info else None) with
           | Some info =>
               let correction :=
                 dict_update {[ "original" := VStr word;
                                "corrected" := VStr corrected ]} info in
               (corrected_words, corrections ++ [correction])
           | None => (corrected_words, corrections)
           end)
        (corrected_words, corrections) todo
  = (corrected_words ++ todo.*2, corrections).
Proof.
  revert corrected_words corrections.
  induction todo as [|[i word] todo IH]; intros cw cs Hdict.
  - simpl. by rewrite app_nil_r.
  - simpl foldl.
    rewrite correct_word_in_dictionary by (apply Hdict; simpl; left).
    cbv iota beta. rewrite IH.
    + simpl. by rewrite <- app_assoc.
    + intros w Hw. apply Hdict. simpl. by right.
Qed.

(** C1, as stated, fails: the text is rebuilt from its words with single
    spaces, so surrounding or repeated whitespace is not kept. *)
Lemma C1_leading_space_is_not_kept :
  (∀ w, w ∈ split (0x20%N :: ketab)
        → w ∈ EnhancedPostProcessor.dictionary (enhanced_default {[ ketab ]} ∅))
  ∧ EnhancedPostProcessor.process_text ascii_runtime
      (enhanced_default {[ ketab ]} ∅) (0x20%N :: ketab)
    ≠ (0x20%N :: ketab, []).
Proof.
  split.
  - intros w Hw. change (split (32%N :: ketab)) with [ketab] in Hw.
    apply list_elem_of_singleton in Hw as ->. simpl. set_solver.
  - intros H. vm_compute in H. discriminate H.
Qed.

(** C1 (amended): when every word of the text is in the dictionary,
    [process_text] returns the words of the text joined by single spaces,
    with no correction; this is the text itself whenever the text consists
    of words separated by exactly one space. *)
Theorem C1_dictionary_words_are_kept
    (rt : runtime) (self : EnhancedPostProcessor.t) (text : str) :
  (∀ w, w ∈ split text → w ∈ EnhancedPostProcessor.dictionary self) →
  EnhancedPostProcessor.process_text rt self text = (join (split text), [])
  ∧ (∀ ws : list str,
       Forall (λ w, w ≠ [] ∧ Forall (λ c, is_space c = false) w) ws →
       text = join ws →
       EnhancedPostProcessor.process_text rt self text = (text, [])).
Proof.
  intros Hdict.
  assert (Hmain : EnhancedPostProcessor.process_text rt self text
                  = (join (split text), [])).
  { unfold EnhancedPostProcessor.process_text.
    rewrite process_text_loop_accepts.
    - unfold enumerate. by rewrite (enumerate_snd id).
    - unfold enumerate. by rewrite (enumerate_snd id). }
  split; [exact Hmain|].
  intros ws Hws ->. rewrite Hmain. by rewrite split_join.
Qed.

Lemma C1_dictionary_words_are_kept_witness :
  EnhancedPostProcessor.process_text ascii_runtime
    (enhanced_default {[ ketab ]} ∅) (ketab ++ 0x20%N :: ketab)
  = (ketab ++ 0x20%N :: ketab, []).
Proof.
  assert (Hdict : ∀ w, w ∈ split (ketab ++ 0x20%N :: ketab)
            → w ∈ EnhancedPostProcessor.dictionary
                    (enhanced_default {[ ketab ]} ∅)).
  { intros w Hw.
    change (split (ketab ++ 32%N :: ketab)) with [ketab; ketab] in Hw.
    simpl. apply elem_of_singleton.
    apply elem_of_cons in Hw as [->|Hw]; [done|].
    by apply list_elem_of_singleton in Hw. }
  destruct (C1_dictionary_words_are_kept ascii_runtime _ _ Hdict) as [_ H].
  apply (H [ketab; ketab]); [|reflexivity].
  repeat constructor; try discriminate.
Defined.

(** ** [generate_confusion_variants] *)

Section variants.
Context (word : str).

Local Abbreviation forward_step :=
  (λ (variants : gset str) (ic : nat * N),
     match matrix_get CONFUSION_MATRIX [ic.2] with
     | Some replacements =>
         foldl (λ variants replacement,
                  variants ∪ {[ EnhancedPostProcessor.substitute word ic.1
                                  replacement ]})
               variants replacements
     | None => variants
     end).

Local Abbreviation backward_step :=
  (λ (variants : gset str) (ic : nat * N),
     match OCR_MIGHT_PRODUCE !! [ic.2] with
     | Some originals =>
         set_fold (λ original variants,
                     variants ∪ {[ EnhancedPostProcessor.substitute word ic.1
                                     original ]})
                  variants originals
     | None => variants
     end).

Lemma add_variants_mono (i : nat) (rs : list str) (acc : gset str) (x : str) :
  x ∈ acc →
  x ∈ foldl (λ variants r,
               variants ∪ {[ EnhancedPostProcessor.substitute word i r ]})
            acc rs.
Proof.
  revert acc. induction rs as [|r rs IH]; intros acc Hx; [done|].
  simpl. apply IH. set_solver.
Qed.

Lemma add_variants_elem (i : nat) (rs : list str) (acc : gset str) (r : str) :
  r ∈ rs →
  EnhancedPostProcessor.substitute word i r
    ∈ foldl (λ variants r,
               variants ∪ {[ EnhancedPostProcessor.substitute word i r ]})
            acc rs.
Proof.
  revert acc. induction rs as [|r' rs IH]; intros acc Hr.
  - by apply elem_of_nil in Hr.
  - simpl. apply elem_of_cons in Hr as [->|Hr].
    + apply add_variants_mono. set_solver.
    + by apply IH.
Qed.

Lemma forward_step_mono (acc : gset str) (ic : nat * N) (x : str) :
  x ∈ acc → x ∈ forward_step acc ic.
Proof.
  intros Hx. cbv beta. destruct (matrix_get CONFUSION_MATRIX [ic.2]); [|done].
  by apply add_variants_mono.
Qed.

Lemma forward_loop_mono (l : list (nat * N)) (acc : gset str) (x : str) :
  x ∈ acc → x ∈ foldl forward_step acc l.
Proof.
  revert acc. induction l as [|ic l IH]; intros acc Hx; [done|].
  cbn [foldl]. by apply IH, forward_step_mono.
Qed.

Lemma forward_loop_elem (l : list (nat * N)) (acc : gset str)
    (i : nat) (c1 : N) (replacements : list str) (c2 : str) :
  (i, c1) ∈ l →
  matrix_get CONFUSION_MATRIX [c1] = Some replacements →
  c2 ∈ replacements →
  EnhancedPostProcessor.substitute word i c2 ∈ foldl forward_step acc l.
Proof.
  intros Hin Hget Hc2. revert acc.
  induction l as [|ic l IH]; intros acc.
  - by apply elem_of_nil in Hin.
  - cbn [foldl]. apply elem_of_cons in Hin as [<-|Hin].
    + apply forward_loop_mono. cbv beta.
      change ((i, c1).2) with c1. change ((i, c1).1) with i.
      rewrite Hget. by apply add_variants_elem.
    + by apply IH.
Qed.

Lemma backward_step_mono (acc : gset str) (ic : nat * N) (x : str) :
  x ∈ acc → x ∈ backward_step acc ic.
Proof.
  intros Hx. cbv beta.
  destruct (OCR_MIGHT_PRODUCE !! [ic.2]) as [originals|]; [|done].
  unfold set_fold. simpl.
  induction (elements originals) as [|o os IH]; [done|].
  simpl. set_solver.
Qed.

Lemma backward_loop_mono (l : list (nat * N)) (acc : gset str) (x : str) :
  x ∈ acc → x ∈ foldl backward_step acc l.
Proof.
  revert acc. induction l as [|ic l IH]; intros acc Hx; [done|].
  cbn [foldl]. by apply IH, backward_step_mono.
Qed.

Lemma variant_set_word : word ∈ EnhancedPostProcessor.variant_set word.
Proof.
  unfold EnhancedPostProcessor.variant_set.
  apply backward_loop_mono, forward_loop_mono. set_solver.
Qed.

Lemma variant_set_substitute (i : nat) (c1 : N) (replacements : list str)
    (c2 : str) :
  word !! i = Some c1 →
  matrix_get CONFUSION_MATRIX [c1] = Some replacements →
  c2 ∈ replacements →
  EnhancedPostProcessor.substitute word i c2
    ∈ EnhancedPostProcessor.variant_set word.
Proof.
  intros Hi Hget Hc2. unfold EnhancedPostProcessor.variant_set.
  apply backward_loop_mono.
  eapply forward_loop_elem; [|exact Hget|exact Hc2].
  unfold enumerate. by apply (elem_of_lookup_imap_2 (λ i x, (i, x))).
Qed.

End variants.

Lemma set_iter_elem (rt : runtime) (X : gset str) (x : str) :
  x ∈ set_iter rt X ↔ x ∈ X.
Proof. by rewrite (set_iter_perm rt X), elem_of_elements. Qed.

Lemma set_iter_length (rt : runtime) (X : gset str) :
  length (set_iter rt X) = size X.
Proof. by rewrite (set_iter_perm rt X). Qed.

(** C6, as stated, fails: the cut to [max_variants] drops members of the
    set.  For the one-letter word sin (U+0633), whose variant with shin
    (U+0634) is in the table, a bound of 1 cannot keep both the word and
    the variant, and a bound of 0 keeps nothing. *)
Lemma C6_cut_drops_the_word_or_the_variant :
  [0x0634%N] ∈ default [] (matrix_get CONFUSION_MATRIX [0x0633%N])
  ∧ ¬ ([0x0633%N]
         ∈ EnhancedPostProcessor.generate_confusion_variants ascii_runtime
             [0x0633%N] 1
       ∧ EnhancedPostProcessor.substitute [0x0633%N] 0 [0x0634%N]
           ∈ EnhancedPostProcessor.generate_confusion_variants ascii_runtime
               [0x0633%N] 1)
  ∧ [0x0633%N]
      ∉ EnhancedPostProcessor.generate_confusion_variants ascii_runtime
          [0x0633%N] 0.
Proof.
  split; [|split].
  - apply (bool_decide_unpack _). by vm_compute.
  - apply (bool_decide_unpack _). by vm_compute.
  - apply (bool_decide_unpack _). by vm_compute.
Qed.

(** C6 (amended): for a bound [max_variants >= 0] the returned list has at
    most [max_variants] elements, all of them members of the variant set;
    when the variant set has at most [max_variants] members, the list
    contains the unmodified word and, for every position [i] holding a
    character [c1] and every [c2] confusable with [c1] in the table, the
    word with [c2] substituted at [i]. *)
Theorem C6_variants_up_to_the_bound
    (rt : runtime) (word : str) (max_variants : Z) :
  0 ≤ max_variants →
  len (EnhancedPostProcessor.generate_confusion_variants rt word max_variants)
    ≤ max_variants
  ∧ (∀ v, v ∈ EnhancedPostProcessor.generate_confusion_variants rt word
                max_variants
          → v ∈ EnhancedPostProcessor.variant_set word)
  ∧ (Z.of_nat (size (EnhancedPostProcessor.variant_set word)) ≤ max_variants →
     word ∈ EnhancedPostProcessor.generate_confusion_variants rt word
              max_variants
     ∧ ∀ (i : nat) (c1 : N) (replacements : list str) (c2 : str),
         word !! i = Some c1 →
         matrix_get CONFUSION_MATRIX [c1] = Some replacements →
         c2 ∈ replacements →
         EnhancedPostProcessor.substitute word i c2
           ∈ EnhancedPostProcessor.generate_confusion_variants rt word
               max_variants).
Proof.
  intros Hmv. unfold EnhancedPostProcessor.generate_confusion_variants,
    slice_to, len.
  rewrite (proj2 (Z.leb_le 0 max_variants) Hmv).
  split; [|split].
  - rewrite length_take. lia.
  - intros v Hv. apply (set_iter_elem rt). by eapply subseteq_take.
  - intros Hsize.
    rewrite take_ge by (rewrite set_iter_length; lia).
    split.
    + apply set_iter_elem, variant_set_word.
    + intros i c1 replacements c2 Hi Hget Hc2.
      by eapply set_iter_elem, variant_set_substitute.
Qed.

Lemma C6_variants_up_to_the_bound_witness :
  len (EnhancedPostProcessor.generate_confusion_variants ascii_runtime
         [0x0633%N] 20) ≤ 20
  ∧ [0x0633%N]
      ∈ EnhancedPostProcessor.generate_confusion_variants ascii_runtime
          [0x0633%N] 20
  ∧ EnhancedPostProcessor.substitute [0x0633%N] 0 [0x0634%N]
      ∈ EnhancedPostProcessor.generate_confusion_variants ascii_runtime
          [0x0633%N] 20.
Proof.
  destruct (C6_variants_up_to_the_bound ascii_runtime [0x0633%N] 20)
    as (Hlen & _ & Hall); [lia|].
  split; [exact Hlen|].
  destruct Hall as [Hword Hsub]; [by vm_compute|].
  split; [exact Hword|].
  apply (Hsub 0%nat 0x0633%N [[0x0634%N]]); [reflexivity|reflexivity|].
  apply list_elem_of_here.
Defined.

(** ** Order of the candidates of [find_candidates] *)

Section sort_by_key.
Context {A : Type} (key : A → Q).

Local Abbreviation key_le := (λ a b : A, (key a <= key b)%Q).

Lemma insert_by_perm (x : A) (l : list A) : insert_by key x l ≡ₚ x :: l.
Proof.
  induction l as [|y l IH]; [done|]. simpl.
  destruct (Qlt_le_dec (key y) (key x)); [|done].
  rewrite IH. apply Permutation_swap.
Qed.

Lemma sort_by_perm (l : list A) : sort_by key l ≡ₚ l.
Proof.
  induction l as [|x l IH]; [done|].
  unfold sort_by in *. simpl. by rewrite insert_by_perm, IH.
Qed.

Lemma insert_by_sorted (x : A) (l : list A) :
  StronglySorted key_le l → StronglySorted key_le (insert_by key x l).
Proof.
  induction l as [|y l IH]; intros Hl; simpl.
  - repeat constructor.
  - apply StronglySorted_inv in Hl as [Hl Hy].
    destruct (Qlt_le_dec (key y) (key x)) as [Hlt|Hle].
    + constructor; [by apply IH|].
      rewrite insert_by_perm. constructor; [by apply Qlt_le_weak|done].
    + constructor; [by constructor|].
      constructor; [done|].
      eapply Forall_impl; [exact Hy|]. intros z Hz. cbv beta in *.
      by eapply Qle_trans.
Qed.

Lemma sort_by_sorted (l : list A) : StronglySorted key_le (sort_by key l).
Proof.
  induction l as [|x l IH]; [constructor|].
  by apply insert_by_sorted.
Qed.

End sort_by_key.

Lemma StronglySorted_take {A} (R : relation A) (n : nat) (l : list A) :
  StronglySorted R l → StronglySorted R (take n l).
Proof.
  intros Hl. rewrite <- (take_drop n l) in Hl.
  by apply StronglySorted_app_1_l in Hl.
Qed.

Lemma StronglySorted_slice_to {A} (R : relation A) (k : Z) (l : list A) :
  StronglySorted R l → StronglySorted R (slice_to l k).
Proof.
  intros Hl. unfold slice_to. destruct (0 <=? k); by apply StronglySorted_take.
Qed.

Lemma StronglySorted_fmap_impl {A B} (R : relation A) (R' : relation B)
    (f : A → B) (l : list A) :
  (∀ a b, R a b → R' (f a) (f b)) →
  StronglySorted R l → StronglySorted R' (f <$> l).
Proof.
  intros Hf. induction 1 as [|a l Hl IH Ha]; simpl; constructor; [done|].
  apply Forall_fmap. eapply Forall_impl; [exact Ha|]. intros b Hb. by apply Hf.
Qed.

(** The sort leaves the candidates in descending order of their score. *)
Lemma sorted_candidates_descending
    (rt : runtime) (self : EnhancedPostProcessor.t) (word : str)
    (char_confidences : option (list Q)) (max_candidates : Z) :
  StronglySorted (λ a b : cand, (b.1.2 <= a.1.2)%Q)
    (EnhancedPostProcessor.sorted_candidates rt self word char_confidences
       max_candidates).
Proof.
  unfold EnhancedPostProcessor.sorted_candidates.
  set (key := λ x : cand, (- x.1.2)%Q).
  generalize (EnhancedPostProcessor.confidence_boost self word
                char_confidences
                (EnhancedPostProcessor.fuzzy_candidates rt self word
                   max_candidates
                   (EnhancedPostProcessor.variant_candidates rt self word))).
  intros l. pose proof (sort_by_sorted key l) as Hsorted.
  induction Hsorted as [|a l' Hl IH Ha]; constructor; [done|].
  eapply Forall_impl; [exact Ha|]. intros b Hb. unfold key in Hb.
  apply Qopp_le_compat in Hb. by rewrite !Qopp_involutive in Hb.
Qed.

Lemma freq_bonus_range (self : EnhancedPostProcessor.t) (candidate : str) :
  (0 <= inject_Z (EnhancedPostProcessor.freq_bonus self candidate) <= 3)%Q.
Proof.
  rewrite freq_bonus_spec. destruct (10 <? _); split; by compute.
Qed.

(** Adding the bonus to two candidates in order can invert them by at most
    three points. *)
Lemma add_freq_bonus_order (self : EnhancedPostProcessor.t) (a b : cand) :
  (b.1.2 <= a.1.2)%Q →
  ((EnhancedPostProcessor.add_freq_bonus self b).1.2
   <= (EnhancedPostProcessor.add_freq_bonus self a).1.2 + 3)%Q.
Proof.
  destruct a as [[ca sa] ia], b as [[cb sb] ib]. simpl. intros Hab.
  pose proof (freq_bonus_range self ca) as [Ha0 Ha3].
  pose proof (freq_bonus_range self cb) as [Hb0 Hb3].
  unfold Py.min. repeat destruct (Qlt_le_dec _ _); lra.
Qed.

(** C5, as stated, fails: the bonus is added after the sort.  The shin
    variant scores 100 - 30/22 and gets no bonus; the lam-alef variant
    scores 100 - 100/23, is sorted second, and ends with 3 points more,
    above the first. *)
Lemma C5_final_scores_not_descending :
  score_of <$> EnhancedPostProcessor.find_candidates ascii_runtime
                 two_variants long_word None 10
  = [(1085 # 11)%Q; (2269 # 23)%Q]
  ∧ (1085 # 11 < 2269 # 23)%Q.
Proof. split; by vm_compute. Qed.

(** C5 (amended): for [max_candidates >= 1] the result has at most
    [max_candidates] entries.  With a non-empty dictionary that does not
    hold the word, it is the image under the frequency bonus of the first
    [max_candidates] candidates, which are in descending order of their
    score before the bonus (after the confidence boost); so the final
    scores descend only up to the bonus of 3 points.  If no candidate
    survives, the result is exactly [[(word, 0, {'source': 'no_match'})]]. *)
Theorem C5_candidates_ordered_before_bonus
    (rt : runtime) (self : EnhancedPostProcessor.t) (word : str)
    (char_confidences : option (list Q)) (max_candidates : Z) :
  1 ≤ max_candidates →
  len (EnhancedPostProcessor.find_candidates rt self word char_confidences
         max_candidates) ≤ max_candidates
  ∧ StronglySorted (λ a b : cand, (b.1.2 <= a.1.2 + 3)%Q)
      (EnhancedPostProcessor.find_candidates rt self word char_confidences
         max_candidates)
  ∧ (EnhancedPostProcessor.dictionary self ≠ ∅ →
     word ∉ EnhancedPostProcessor.dictionary self →
     StronglySorted (λ a b : cand, (b.1.2 <= a.1.2)%Q)
       (EnhancedPostProcessor.sorted_candidates rt self word char_confidences
          max_candidates)
     ∧ (EnhancedPostProcessor.sorted_candidates rt self word char_confidences
          max_candidates = [] →
        EnhancedPostProcessor.find_candidates rt self word char_confidences
          max_candidates
        = [(word, 0%Q, {[ "source" := VStr (lit "no_match") ]})])
     ∧ (EnhancedPostProcessor.sorted_candidates rt self word char_confidences
          max_candidates ≠ [] →
        EnhancedPostProcessor.find_candidates rt self word char_confidences
          max_candidates
        = EnhancedPostProcessor.add_freq_bonus self
            <$> slice_to (EnhancedPostProcessor.sorted_candidates rt self word
                            char_confidences max_candidates)
                  max_candidates)).
Proof.
  intros Hmc.
  pose proof (sorted_candidates_descending rt self word char_confidences
                max_candidates) as Hsorted.
  unfold EnhancedPostProcessor.find_candidates.
  set (sorted := EnhancedPostProcessor.sorted_candidates rt self word
                   char_confidences max_candidates) in *.
  assert (Hslice : slice_to sorted max_candidates
                   = take (Z.to_nat max_candidates) sorted).
  { unfold slice_to. by rewrite (proj2 (Z.leb_le 0 max_candidates)) by lia. }
  case_decide as Hempty; [|case_decide as Hin].
  - split; [unfold len; simpl; lia|].
    split; [repeat constructor|done].
  - split; [unfold len; simpl; lia|].
    split; [repeat constructor|done].
  - rewrite Hslice.
    destruct sorted as [|c0 sorted'] eqn:Hs.
    + rewrite take_nil. simpl.
      split; [unfold len; simpl; lia|].
      split; [repeat constructor|]. intros _ _.
      split; [constructor|]. split; [done|]. by intros [].
    + destruct (Z.to_nat max_candidates) as [|n] eqn:Hn; [lia|].
      rewrite firstn_cons, fmap_cons. rewrite <- fmap_cons.
      change (c0 :: take n sorted') with (take (S n) (c0 :: sorted')).
      split; [|split].
      * unfold len. rewrite length_fmap, length_take. lia.
      * eapply StronglySorted_fmap_impl; [apply add_freq_bonus_order|].
        by apply StronglySorted_take.
      * intros _ _. split; [done|]. split; [done|]. done.
Qed.

Lemma C5_candidates_ordered_before_bonus_witness :
  len (EnhancedPostProcessor.find_candidates ascii_runtime two_variants
         long_word None 10) ≤ 10
  ∧ StronglySorted (λ a b : cand, (b.1.2 <= a.1.2 + 3)%Q)
      (EnhancedPostProcessor.find_candidates ascii_runtime two_variants
         long_word None 10).
Proof.
  destruct (C5_candidates_ordered_before_bonus ascii_runtime two_variants
              long_word None 10) as (Hlen & Hord & _); [lia|].
  split; [exact Hlen|exact Hord].
Defined.

(** ** Merging a saved model ([merge_with_existing]) *)

Lemma count_add_count (c : gmap str Z) (k k' : str) (n : Z) :
  count (CorpusProcessor.add_count c k n) k'
  = count c k' + (if decide (k = k') then n else 0).
Proof.
  unfold CorpusProcessor.add_count, count.
  destruct (decide (k = k')) as [->|Hne].
  - by rewrite lookup_insert_eq.
  - rewrite lookup_insert_ne by done. lia.
Qed.

Lemma count2_add_count2 (table : gmap str (gmap str Z))
    (k1 k2 a b : str) (n : Z) :
  CorpusProcessor.count2 (CorpusProcessor.add_count2 table k1 k2 n) a b
  = CorpusProcessor.count2 table a b
    + (if decide (k1 = a ∧ k2 = b) then n else 0).
Proof.
  unfold CorpusProcessor.add_count2, CorpusProcessor.count2.
  destruct (decide (k1 = a)) as [->|Hne].
  - rewrite lookup_total_insert_eq, count_add_count.
    destruct (decide (k2 = b)) as [->|Hne2].
    + by rewrite decide_True.
    + by rewrite decide_False by (by intros [_ ?]).
  - rewrite lookup_total_insert_ne by done.
    rewrite decide_False by (by intros [? _]). lia.
Qed.

Lemma count_empty (k : str) : count ∅ k = 0.
Proof. unfold count. by rewrite lookup_empty. Qed.

Lemma count2_empty (a b : str) : CorpusProcessor.count2 ∅ a b = 0.
Proof.
  unfold CorpusProcessor.count2. rewrite lookup_total_empty.
  apply count_empty.
Qed.

Lemma count_insert_fresh (m : gmap str Z) (i k : str) (x : Z) :
  m !! i = None →
  count (<[i := x]> m) k = count m k + (if decide (i = k) then x else 0).
Proof.
  intros Hi. unfold count. destruct (decide (i = k)) as [->|Hne].
  - by rewrite lookup_insert_eq, Hi.
  - rewrite lookup_insert_ne by done. lia.
Qed.

Lemma sum_values_insert_fresh (m : gmap str Z) (i : str) (x : Z) :
  m !! i = None → sum_values (<[i := x]> m) = sum_values m + x.
Proof.
  intros Hi. unfold sum_values.
  rewrite map_fold_insert_L; [done| |done]. intros. lia.
Qed.

Lemma sum_values2_insert_fresh (m : gmap str (gmap str Z)) (i : str)
    (following : gmap str Z) :
  m !! i = None →
  CorpusProcessor.sum_values2 (<[i := following]> m)
  = CorpusProcessor.sum_values2 m + sum_values following.
Proof.
  intros Hi. unfold CorpusProcessor.sum_values2.
  rewrite map_fold_insert_L; [done| |done]. intros. lia.
Qed.

(** A field that no step of a loop writes is the same after the loop. *)
Lemma map_fold_frame {V S F} (step : str → V → S → S) (field : S → F)
    (s : S) (m : gmap str V) :
  (∀ k v s, field (step k v s) = field s) →
  field (map_fold step s m) = field s.
Proof.
  intros Hstep.
  apply (map_fold_weak_ind (λ r _, field r = field s)); [done|].
  intros k v m' r _ Hr. by rewrite Hstep.
Qed.

(** The loop over [data['word_freq'].items()]. *)
Lemma merge_words_spec (self : CorpusProcessor.t) (m : gmap str Z) :
  let merged := map_fold CorpusProcessor.add_word self m in
  (∀ w, count (CorpusProcessor.word_freq merged) w
        = count (CorpusProcessor.word_freq self) w + count m w)
  ∧ CorpusProcessor.total_words merged
    = CorpusProcessor.total_words self + sum_values m.
Proof.
  apply (map_fold_weak_ind
    (λ r m,
       (∀ w, count (CorpusProcessor.word_freq r) w
             = count (CorpusProcessor.word_freq self) w + count m w)
       ∧ CorpusProcessor.total_words r
         = CorpusProcessor.total_words self + sum_values m)).
  - split; [|unfold sum_values; rewrite map_fold_empty; lia].
    intros w. rewrite count_empty. lia.
  - intros i x m' r Hi [Hcount Htotal]. split.
    + intros w. simpl. rewrite count_add_count, Hcount.
      rewrite count_insert_fresh by done. lia.
    + simpl. rewrite Htotal, sum_values_insert_fresh by done. lia.
Qed.

(** The nested loops over a table of counters, for the bigrams and for the
    trigrams alike: [step] adds to one table and to its total. *)
Section merge_table.
Context (step : str → str → Z → CorpusProcessor.t → CorpusProcessor.t).
Context (table : CorpusProcessor.t → gmap str (gmap str Z)).
Context (total : CorpusProcessor.t → Z).
Hypothesis step_table : ∀ k1 k2 n s,
  table (step k1 k2 n s) = CorpusProcessor.add_count2 (table s) k1 k2 n.
Hypothesis step_total : ∀ k1 k2 n s, total (step k1 k2 n s) = total s + n.

Lemma merge_row_spec (self : CorpusProcessor.t) (k1 : str)
    (following : gmap str Z) :
  let merged := map_fold (λ k2 n s, step k1 k2 n s) self following in
  (∀ a b, CorpusProcessor.count2 (table merged) a b
          = CorpusProcessor.count2 (table self) a b
            + (if decide (k1 = a) then count following b else 0))
  ∧ total merged = total self + sum_values following.
Proof.
  apply (map_fold_weak_ind
    (λ r m,
       (∀ a b, CorpusProcessor.count2 (table r) a b
               = CorpusProcessor.count2 (table self) a b
                 + (if decide (k1 = a) then count m b else 0))
       ∧ total r = total self + sum_values m)).
  - split; [|unfold sum_values; rewrite map_fold_empty; lia].
    intros a b. rewrite count_empty. destruct (decide (k1 = a)); lia.
  - intros i x m' r Hi [Hcount Htotal]. split.
    + intros a b. rewrite step_table, count2_add_count2, Hcount.
      rewrite count_insert_fresh by done.
      destruct (decide (k1 = a)) as [->|Hne].
      * destruct (decide (i = b)) as [->|Hne2].
        -- rewrite decide_True by done. lia.
        -- rewrite decide_False by (by intros [_ ?]). lia.
      * rewrite decide_False by (by intros [? _]). lia.
    + rewrite step_total, Htotal, sum_values_insert_fresh by done. lia.
Qed.

Lemma merge_table_spec (self : CorpusProcessor.t)
    (m : gmap str (gmap str Z)) :
  let merged :=
    map_fold (λ k1 following s,
                map_fold (λ k2 n s, step k1 k2 n s) s following)
             self m in
  (∀ a b, CorpusProcessor.count2 (table merged) a b
          = CorpusProcessor.count2 (table self) a b
            + CorpusProcessor.count2 m a b)
  ∧ total merged = total self + CorpusProcessor.sum_values2 m.
Proof.
  apply (map_fold_weak_ind
    (λ r m,
       (∀ a b, CorpusProcessor.count2 (table r) a b
               = CorpusProcessor.count2 (table self) a b
                 + CorpusProcessor.count2 m a b)
       ∧ total r = total self + CorpusProcessor.sum_values2 m)).
  - split.
    + intros a b. rewrite count2_empty. lia.
    + unfold CorpusProcessor.sum_values2. rewrite map_fold_empty. lia.
  - intros i following m' r Hi [Hcount Htotal].
    destruct (merge_row_spec r i following) as [Hrow Hrowtotal].
    split.
    + intros a b. rewrite Hrow, Hcount.
      unfold CorpusProcessor.count2.
      destruct (decide (i = a)) as [->|Hne].
      * rewrite lookup_total_insert_eq.
        rewrite (lookup_total_alt m'), Hi.
        change (count (default inhabitant None) b) with (count ∅ b).
        rewrite count_empty. lia.
      * rewrite lookup_total_insert_ne by done. lia.
    + rewrite Hrowtotal, Htotal, sum_values2_insert_fresh by done. lia.
Qed.

Lemma merge_table_frame {F} (field : CorpusProcessor.t → F)
    (self : CorpusProcessor.t) (m : gmap str (gmap str Z)) :
  (∀ k1 k2 n s, field (step k1 k2 n s) = field s) →
  field (map_fold (λ k1 following s,
                     map_fold (λ k2 n s, step k1 k2 n s) s following)
                  self m)
  = field self.
Proof.
  intros Hstep. apply map_fold_frame. intros k1 following s.
  by apply map_fold_frame.
Qed.

End merge_table.

(** The three loops of [merge_with_existing], one after the other. *)
Lemma merge_with_existing_fields (self : CorpusProcessor.t)
    (data : CorpusProcessor.snapshot) :
  let words := default ∅ (CorpusProcessor.snap_word_freq data) in
  let pairs := default ∅ (CorpusProcessor.snap_bigrams data) in
  let triples := default ∅ (CorpusProcessor.snap_trigrams data) in
  let merged := CorpusProcessor.merge_with_existing self (Some data) in
  ((∀ w, count (CorpusProcessor.word_freq merged) w
         = count (CorpusProcessor.word_freq self) w + count words w)
   ∧ CorpusProcessor.total_words merged
     = CorpusProcessor.total_words self + sum_values words)
  ∧ ((∀ a b, CorpusProcessor.count2 (CorpusProcessor.bigrams merged) a b
             = CorpusProcessor.count2 (CorpusProcessor.bigrams self) a b
               + CorpusProcessor.count2 pairs a b)
     ∧ CorpusProcessor.total_bigrams merged
       = CorpusProcessor.total_bigrams self
         + CorpusProcessor.sum_values2 pairs)
  ∧ ((∀ a b, CorpusProcessor.count2 (CorpusProcessor.trigrams merged) a b
             = CorpusProcessor.count2 (CorpusProcessor.trigrams self) a b
               + CorpusProcessor.count2 triples a b)
     ∧ CorpusProcessor.total_trigrams merged
       = CorpusProcessor.total_trigrams self
         + CorpusProcessor.sum_values2 triples)
  ∧ CorpusProcessor.files_processed merged
    = CorpusProcessor.files_processed self.
Proof.
  intros words pairs triples merged.
  unfold merged, CorpusProcessor.merge_with_existing.
  fold words pairs triples.
  set (s1 := map_fold CorpusProcessor.add_word self words).
  set (s2 := map_fold (λ w1 following s,
                         map_fold (λ w2 n s, CorpusProcessor.add_bigram w1 w2 n s)
                                  s following) s1 pairs).
  pose proof (merge_words_spec self words) as Hwords.
  pose proof (merge_table_spec CorpusProcessor.add_bigram
                CorpusProcessor.bigrams CorpusProcessor.total_bigrams
                (λ _ _ _ _, eq_refl) (λ _ _ _ _, eq_refl) s1 pairs) as Hpairs.
  pose proof (merge_table_spec CorpusProcessor.add_trigram
                CorpusProcessor.trigrams CorpusProcessor.total_trigrams
                (λ _ _ _ _, eq_refl) (λ _ _ _ _, eq_refl) s2 triples)
    as Htriples.
  cbv zeta in Hwords, Hpairs, Htriples. fold s1 in Hwords. fold s2 in Hpairs.
  split; [|split; [|split]].
  - rewrite !(merge_table_frame CorpusProcessor.add_trigram) by done.
    unfold s2.
    rewrite !(merge_table_frame CorpusProcessor.add_bigram) by done.
    exact Hwords.
  - rewrite !(merge_table_frame CorpusProcessor.add_trigram) by done.
    destruct Hpairs as [Hcount Htotal]. split.
    + intros a b. rewrite Hcount. unfold s1.
      by rewrite (map_fold_frame CorpusProcessor.add_word
                    CorpusProcessor.bigrams).
    + rewrite Htotal. unfold s1.
      by rewrite (map_fold_frame CorpusProcessor.add_word
                    CorpusProcessor.total_bigrams).
  - destruct Htriples as [Hcount Htotal]. split.
    + intros a b. rewrite Hcount. unfold s2.
      rewrite (merge_table_frame CorpusProcessor.add_bigram) by done.
      unfold s1.
      by rewrite (map_fold_frame CorpusProcessor.add_word
                    CorpusProcessor.trigrams).
    + rewrite Htotal. unfold s2.
      rewrite (merge_table_frame CorpusProcessor.add_bigram) by done.
      unfold s1.
      by rewrite (map_fold_frame CorpusProcessor.add_word
                    CorpusProcessor.total_trigrams).
  - rewrite (merge_table_frame CorpusProcessor.add_trigram) by done.
    unfold s2.
    rewrite (merge_table_frame CorpusProcessor.add_bigram) by done.
    unfold s1. by rewrite (map_fold_frame CorpusProcessor.add_word).
Qed.

(** Merging a saved model adds its counts to the counts of the processor,
    word by word, pair by pair and triple by triple. *)
Theorem merge_counts_are_sums (self : CorpusProcessor.t)
    (data : CorpusProcessor.snapshot) :
  let merged := CorpusProcessor.merge_with_existing self (Some data) in
  (∀ w, count (CorpusProcessor.word_freq merged) w
        = count (CorpusProcessor.word_freq self) w
          + count (default ∅ (CorpusProcessor.snap_word_freq data)) w)
  ∧ (∀ w1 w2, CorpusProcessor.count2 (CorpusProcessor.bigrams merged) w1 w2
              = CorpusProcessor.count2 (CorpusProcessor.bigrams self) w1 w2
                + CorpusProcessor.count2
                    (default ∅ (CorpusProcessor.snap_bigrams data)) w1 w2)
  ∧ (∀ key w3, CorpusProcessor.count2 (CorpusProcessor.trigrams merged) key w3
               = CorpusProcessor.count2 (CorpusProcessor.trigrams self) key w3
                 + CorpusProcessor.count2
                     (default ∅ (CorpusProcessor.snap_trigrams data)) key w3).
Proof.
  destruct (merge_with_existing_fields self data)
    as ([Hw _] & [Hb _] & [Ht _] & _).
  cbv zeta. by split; [|split].
Qed.

(** The totals grow by the sums of the merged counts, whatever totals the
    file stores; they grow by the stored totals when the file is
    consistent. *)
Theorem merge_totals (self : CorpusProcessor.t)
    (data : CorpusProcessor.snapshot) :
  let merged := CorpusProcessor.merge_with_existing self (Some data) in
  (CorpusProcessor.total_words merged
   = CorpusProcessor.total_words self
     + sum_values (default ∅ (CorpusProcessor.snap_word_freq data))
   ∧ CorpusProcessor.total_bigrams merged
     = CorpusProcessor.total_bigrams self
       + CorpusProcessor.sum_values2
           (default ∅ (CorpusProcessor.snap_bigrams data))
   ∧ CorpusProcessor.total_trigrams merged
     = CorpusProcessor.total_trigrams self
       + CorpusProcessor.sum_values2
           (default ∅ (CorpusProcessor.snap_trigrams data)))
  ∧ (CorpusProcessor.consistent data →
     CorpusProcessor.total_words merged
     = CorpusProcessor.total_words self + CorpusProcessor.snap_total_words data
     ∧ CorpusProcessor.total_bigrams merged
       = CorpusProcessor.total_bigrams self
         + CorpusProcessor.snap_total_bigrams data
     ∧ CorpusProcessor.total_trigrams merged
       = CorpusProcessor.total_trigrams self
         + CorpusProcessor.snap_total_trigrams data).
Proof.
  destruct (merge_with_existing_fields self data)
    as ([_ Hw] & [_ Hb] & [_ Ht] & _).
  cbv zeta in *. split; [done|].
  intros (Cw & Cb & Ct). rewrite Cw, Cb, Ct. done.
Qed.

(** A missing file, and a file without counts, leave the processor as it
    is. *)
Theorem merge_nothing_is_identity (self : CorpusProcessor.t)
    (data : CorpusProcessor.snapshot) :
  CorpusProcessor.merge_with_existing self None = self
  ∧ (default ∅ (CorpusProcessor.snap_word_freq data) = ∅ →
     default ∅ (CorpusProcessor.snap_bigrams data) = ∅ →
     default ∅ (CorpusProcessor.snap_trigrams data) = ∅ →
     CorpusProcessor.merge_with_existing self (Some data) = self)
  ∧ CorpusProcessor.merge_with_existing self
      (Some CorpusProcessor.empty_snapshot) = self.
Proof.
  split; [done|]. split.
  - intros Hw Hb Ht. unfold CorpusProcessor.merge_with_existing.
    rewrite Hw, Hb, Ht. by rewrite !map_fold_empty.
  - unfold CorpusProcessor.merge_with_existing. simpl.
    by rewrite !map_fold_empty.
Qed.

(** ** Running totals of the corpus model *)

Lemma sum_values_insert (c : gmap str Z) (k : str) (v : Z) :
  sum_values (<[k := v]> c) = sum_values c - count c k + v.
Proof.
  rewrite <- (insert_delete_eq c).
  rewrite sum_values_insert_fresh by apply lookup_delete_eq.
  unfold count. destruct (c !! k) as [x|] eqn:Hk; simpl.
  - rewrite <- (insert_delete_id c k x) at 2 by done.
    rewrite sum_values_insert_fresh by apply lookup_delete_eq. lia.
  - rewrite delete_id by done. lia.
Qed.

Lemma sum_values_add_count (c : gmap str Z) (k : str) (n : Z) :
  sum_values (CorpusProcessor.add_count c k n) = sum_values c + n.
Proof. unfold CorpusProcessor.add_count. rewrite sum_values_insert. lia. Qed.

Lemma sum_values2_add_count2 (table : gmap str (gmap str Z))
    (k1 k2 : str) (n : Z) :
  CorpusProcessor.sum_values2 (CorpusProcessor.add_count2 table k1 k2 n)
  = CorpusProcessor.sum_values2 table + n.
Proof.
  unfold CorpusProcessor.add_count2.
  rewrite <- (insert_delete_eq table).
  rewrite sum_values2_insert_fresh by apply lookup_delete_eq.
  rewrite sum_values_add_count.
  rewrite (lookup_total_alt table).
  destruct (table !! k1) as [following|] eqn:Hk; simpl.
  - rewrite <- (insert_delete_id table k1 following) at 2 by done.
    rewrite sum_values2_insert_fresh by apply lookup_delete_eq. lia.
  - rewrite delete_id by done.
    change (sum_values inhabitant) with (sum_values (∅ : gmap str Z)).
    unfold sum_values at 1. rewrite map_fold_empty. lia.
Qed.

Lemma map_fold_invariant {V S} (P : S → Prop) (step : str → V → S → S)
    (s : S) (m : gmap str V) :
  (∀ k v s, P s → P (step k v s)) → P s → P (map_fold step s m).
Proof.
  intros Hstep Hs. apply (map_fold_weak_ind (λ r _, P r)); [done|].
  intros k v m' r _ Hr. by apply Hstep.
Qed.

Lemma foldl_invariant {V S} (P : S → Prop) (step : S → V → S)
    (s : S) (l : list V) :
  (∀ s v, P s → P (step s v)) → P s → P (foldl step s l).
Proof.
  intros Hstep. revert s. induction l as [|v l IH]; intros s Hs; [done|].
  simpl. by apply IH, Hstep.
Qed.

Lemma add_word_consistent (word : str) (n : Z) (self : CorpusProcessor.t) :
  CorpusProcessor.consistent (CorpusProcessor.save_model self) →
  CorpusProcessor.consistent
    (CorpusProcessor.save_model (CorpusProcessor.add_word word n self)).
Proof.
  intros (Hw & Hb & Ht). unfold CorpusProcessor.consistent in *. simpl in *.
  rewrite sum_values_add_count. split; [lia|done].
Qed.

Lemma add_bigram_consistent (w1 w2 : str) (n : Z) (self : CorpusProcessor.t) :
  CorpusProcessor.consistent (CorpusProcessor.save_model self) →
  CorpusProcessor.consistent
    (CorpusProcessor.save_model (CorpusProcessor.add_bigram w1 w2 n self)).
Proof.
  intros (Hw & Hb & Ht). unfold CorpusProcessor.consistent in *. simpl in *.
  rewrite sum_values2_add_count2. split; [done|]. split; [lia|done].
Qed.

Lemma add_trigram_consistent (key w3 : str) (n : Z)
    (self : CorpusProcessor.t) :
  CorpusProcessor.consistent (CorpusProcessor.save_model self) →
  CorpusProcessor.consistent
    (CorpusProcessor.save_model (CorpusProcessor.add_trigram key w3 n self)).
Proof.
  intros (Hw & Hb & Ht). unfold CorpusProcessor.consistent in *. simpl in *.
  rewrite sum_values2_add_count2. split; [done|]. split; [done|lia].
Qed.

(** A processor whose totals are the sums of its counts stays so after
    [process_text] on any text and after [merge_with_existing] of any
    file, consistent or not; the fresh processor is such a processor. *)
Theorem totals_stay_sums_of_counts (rt : runtime) (self : CorpusProcessor.t) :
  CorpusProcessor.consistent (CorpusProcessor.save_model self) →
  (∀ text, CorpusProcessor.consistent
             (CorpusProcessor.save_model
                (CorpusProcessor.process_text rt self text)))
  ∧ (∀ file, CorpusProcessor.consistent
               (CorpusProcessor.save_model
                  (CorpusProcessor.merge_with_existing self file))).
Proof.
  intros Hself. split.
  - intros text. unfold CorpusProcessor.process_text.
    set (P := λ s, CorpusProcessor.consistent (CorpusProcessor.save_model s)).
    destruct (foldl _ ([], self) (split text)) as [normalized s1] eqn:Hloop.
    assert (Hs1 : P s1).
    { change s1 with (normalized, s1).2. rewrite <- Hloop.
      apply (foldl_invariant (λ acc : list str * CorpusProcessor.t, P acc.2));
        [|done].
      intros [l s] w Hs. simpl in *.
      destruct (nonempty _); [|done]. simpl. by apply add_word_consistent. }
    apply (foldl_invariant P).
    + intros s i Hs. by apply add_trigram_consistent.
    + apply (foldl_invariant P); [|done].
      intros s i Hs. by apply add_bigram_consistent.
  - intros [data|]; [|done]. unfold CorpusProcessor.merge_with_existing.
    set (P := λ s, CorpusProcessor.consistent (CorpusProcessor.save_model s)).
    apply (map_fold_invariant P).
    { intros k following s Hs. apply (map_fold_invariant P); [|done].
      intros k2 n s' Hs'. by apply add_trigram_consistent. }
    apply (map_fold_invariant P).
    { intros k following s Hs. apply (map_fold_invariant P); [|done].
      intros k2 n s' Hs'. by apply add_bigram_consistent. }
    apply (map_fold_invariant P); [|done].
    intros k n s Hs. by apply add_word_consistent.
Qed.

Lemma totals_stay_sums_of_counts_witness :
  CorpusProcessor.consistent
    (CorpusProcessor.save_model
       (CorpusProcessor.process_text ascii_runtime CorpusProcessor.__init__
          (ketab ++ 0x20%N :: ketab)))
  ∧ CorpusProcessor.consistent
      (CorpusProcessor.save_model
         (CorpusProcessor.merge_with_existing CorpusProcessor.__init__
            (Some CorpusProcessor.empty_snapshot))).
Proof.
  assert (H0 : CorpusProcessor.consistent
                 (CorpusProcessor.save_model CorpusProcessor.__init__)).
  { repeat split. }
  destruct (totals_stay_sums_of_counts ascii_runtime CorpusProcessor.__init__
              H0) as [Htext Hfile].
  split; [apply Htext|apply Hfile].
Defined.

(** ** The cost matrix of [confusion_distance] *)

Lemma foldl_seq_invariant {S} (P : nat → S → Prop) (f : S → nat → S)
    (s : S) (a n : nat) :
  P a s →
  (∀ k s, (a ≤ k < a + n)%nat → P k s → P (Datatypes.S k) (f s k)) →
  P (a + n)%nat (foldl f s (seq a n)).
Proof.
  revert a s. induction n as [|n IH]; intros a s Hs Hstep.
  - by rewrite Nat.add_0_r.
  - simpl. replace (a + Datatypes.S n)%nat with (Datatypes.S a + n)%nat by lia.
    apply IH.
    + apply Hstep; [lia|done].
    + intros k s' Hk. apply Hstep. lia.
Qed.

Lemma edit_cost_nil_r (l1 : list N) : edit_cost l1 [] = (inject_Z (len l1) * 1)%Q.
Proof. by destruct l1. Qed.

Lemma edit_cost_cons (a b : N) (l1 l2 : list N) :
  edit_cost (a :: l1) (b :: l2)
  = Py.min3 (edit_cost l1 (b :: l2) + 1)
            (edit_cost (a :: l1) l2 + 1)
            (edit_cost l1 l2 + substitution_cost a b).
Proof. done. Qed.

Section table.
Context (word1 word2 : str).

Local Abbreviation shape dp :=
  (length (dp%list : list (list Q)) = S (length word1)
   ∧ ∀ k row, dp !! k = Some row → length row = S (length word2)).

Local Abbreviation cell i j :=
  (edit_cost (reverse (take i word1)) (reverse (take j word2))).

Lemma dp_set_shape (dp : list (list Q)) (i j : nat) (v : Q) :
  shape dp → shape (dp_set dp i j v).
Proof.
  intros [Hlen Hrows]. unfold dp_set. split; [by rewrite length_alter|].
  intros k row. rewrite list_lookup_alter. case_decide as Hk.
  - subst k. destruct (dp !! i) as [row'|] eqn:Hi; [|done].
    intros [= <-]. rewrite length_insert. by eapply Hrows.
  - apply Hrows.
Qed.

Lemma dp_get_set (dp : list (list Q)) (i j i' j' : nat) (v : Q) :
  shape dp → (i ≤ length word1)%nat → (j ≤ length word2)%nat →
  dp_get (dp_set dp i j v) i' j'
  = if decide (i = i' ∧ j = j') then v else dp_get dp i' j'.
Proof.
  intros [Hlen Hrows] Hi Hj. unfold dp_get, dp_set.
  destruct (decide (i = i')) as [<-|Hne].
  - rewrite list_lookup_alter_eq.
    destruct (lookup_lt_is_Some_2 dp i) as [row Hrow]; [lia|].
    rewrite Hrow. simpl. pose proof (Hrows _ _ Hrow) as Hrowlen.
    destruct (decide (j = j')) as [<-|Hne].
    + rewrite decide_True by done.
      by rewrite list_lookup_insert_eq by lia.
    + rewrite decide_False by (by intros [_ ?]).
      by rewrite list_lookup_insert_ne.
  - rewrite list_lookup_alter_ne by done.
    by rewrite decide_False by (by intros [? _]).
Qed.

Lemma cell_0_r (i : nat) :
  (i ≤ length word1)%nat → cell i 0%nat = (inject_Z (Z.of_nat i) * 1)%Q.
Proof.
  intros Hi. rewrite take_0. change (reverse []) with (@nil N).
  rewrite edit_cost_nil_r. unfold len.
  by rewrite length_reverse, length_take, Nat.min_l.
Qed.

Lemma cell_0_l (j : nat) :
  (j ≤ length word2)%nat → cell 0%nat j = (inject_Z (Z.of_nat j) * 1)%Q.
Proof.
  intros Hj. rewrite take_0. change (reverse []) with (@nil N).
  simpl. unfold len. by rewrite length_reverse, length_take, Nat.min_l.
Qed.

Lemma cell_S_S (i j : nat) (c1 c2 : N) :
  word1 !! i = Some c1 → word2 !! j = Some c2 →
  cell (S i) (S j)
  = Py.min3 (cell i (S j) + 1) (cell (S i) j + 1)
            (cell i j + substitution_cost c1 c2).
Proof.
  intros H1 H2.
  rewrite (take_S_r word1 i c1), (take_S_r word2 j c2) by done.
  rewrite !reverse_snoc. apply edit_cost_cons.
Qed.

(** After the two initialisation loops, row 0 and column 0 hold the
    costs of pure insertions and deletions. *)
Lemma dp_base_spec :
  shape (dp_base (length word1) (length word2))
  ∧ (∀ i, (i ≤ length word1)%nat →
          dp_get (dp_base (length word1) (length word2)) i 0%nat = cell i 0%nat)
  ∧ (∀ j, (j ≤ length word2)%nat →
          dp_get (dp_base (length word1) (length word2)) 0%nat j = cell 0%nat j).
Proof.
  unfold dp_base.
  set (dp0 := replicate (S (length word1)) (replicate (S (length word2)) 0%Q)).
  assert (Hshape0 : shape dp0).
  { unfold dp0. split; [by rewrite length_replicate|].
    intros k row Hk. apply lookup_replicate in Hk as [-> _].
    by rewrite length_replicate. }
  set (dp1 := foldl _ dp0 (seq 0%nat (S (length word1)))).
  assert (H1 : shape dp1
               ∧ ∀ i, (i < 0 + S (length word1))%nat →
                      dp_get dp1 i 0%nat = cell i 0%nat).
  { apply (foldl_seq_invariant
             (λ k dp, shape dp ∧ ∀ i, (i < k)%nat → dp_get dp i 0%nat = cell i 0%nat)).
    - split; [done|]. intros i Hi. lia.
    - intros k dp Hk [Hshape Hcol]. split; [by apply dp_set_shape|].
      intros i Hi. rewrite dp_get_set by (done || lia).
      case_decide as Heq.
      + destruct Heq as [<- _]. rewrite cell_0_r by lia. done.
      + apply Hcol. destruct (decide (i = k)) as [->|]; [|lia].
        by destruct Heq. }
  destruct H1 as [Hshape1 Hcol1].
  set (dp2 := foldl _ dp1 (seq 0%nat (S (length word2)))).
  assert (H2 : (shape dp2
                ∧ ∀ i, (i ≤ length word1)%nat → dp_get dp2 i 0%nat = cell i 0%nat)
               ∧ ∀ j, (j < 0 + S (length word2))%nat →
                      dp_get dp2 0%nat j = cell 0%nat j).
  { apply (foldl_seq_invariant
             (λ k dp,
                (shape dp
                 ∧ ∀ i, (i ≤ length word1)%nat → dp_get dp i 0%nat = cell i 0%nat)
                ∧ ∀ j, (j < k)%nat → dp_get dp 0%nat j = cell 0%nat j)).
    - split; [|intros j Hj; lia].
      split; [done|]. intros i Hi. apply Hcol1. lia.
    - intros k dp Hk [[Hshape Hcol] Hrow].
      split; [split; [by apply dp_set_shape|]|].
      + intros i Hi. rewrite dp_get_set by (done || lia).
        case_decide as Heq; [|by apply Hcol].
        destruct Heq as [<- ->]. rewrite cell_0_r by lia. done.
      + intros j Hj. rewrite dp_get_set by (done || lia).
        case_decide as Heq.
        * destruct Heq as [_ <-]. rewrite cell_0_l by lia. done.
        * apply Hrow. destruct (decide (j = k)) as [->|]; [|lia].
          by destruct Heq. }
  destruct H2 as [[Hshape2 Hcol2] Hrow2].
  split; [done|]. split; [done|]. intros j Hj. apply Hrow2. lia.
Qed.

End table.

Section table_fill.
Context (word1 word2 : str).

Local Abbreviation shape' dp :=
  (length (dp%list : list (list Q)) = S (length word1)
   ∧ ∀ k row, dp !! k = Some row → length row = S (length word2)).

Local Abbreviation cell' i j :=
  (edit_cost (reverse (take i word1)) (reverse (take j word2))).

(** The cells filled so far, when [(i, j)] is the next cell to fill, hold
    the recurrence. *)
Local Abbreviation filled i j dp :=
  (shape' dp
   ∧ ∀ i' j', (i' ≤ length word1)%nat → (j' ≤ length word2)%nat →
       (i' < i ∨ (i' = i ∧ j' < j) ∨ j' = 0 ∨ i' = 0)%nat →
       dp_get dp i' j' = cell' i' j').

Lemma fill_cell (dp : list (list Q)) (i j : nat) :
  (1 ≤ i ≤ length word1)%nat → (1 ≤ j ≤ length word2)%nat →
  filled i j dp →
  filled i (S j) (dp_set dp i j (dp_cell word1 word2 dp i j)).
Proof.
  intros Hi Hj [Hshape Hcells]. split; [by apply dp_set_shape|].
  intros i' j' Hi' Hj' Hdone.
  rewrite (dp_get_set word1 word2) by (done || lia).
  case_decide as Heq.
  - destruct Heq as [<- <-].
    destruct i as [|i0]; [lia|]. destruct j as [|j0]; [lia|].
    destruct (lookup_lt_is_Some_2 word1 i0) as [c1 Hc1]; [lia|].
    destruct (lookup_lt_is_Some_2 word2 j0) as [c2 Hc2]; [lia|].
    rewrite (cell_S_S word1 word2 i0 j0 c1 c2) by done.
    unfold dp_cell.
    replace (S i0 - 1)%nat with i0 by lia.
    replace (S j0 - 1)%nat with j0 by lia.
    rewrite (list_lookup_total_correct word1 i0 c1) by done.
    rewrite (list_lookup_total_correct word2 j0 c2) by done.
    rewrite !Hcells by lia. done.
  - apply Hcells; [done|done|].
    destruct (decide (i = i')) as [<-|]; [|lia].
    destruct (decide (j = j')) as [<-|]; [|lia].
    by destruct Heq.
Qed.

Lemma fill_row (dp : list (list Q)) (i : nat) :
  (1 ≤ i ≤ length word1)%nat →
  filled i 1%nat dp →
  filled (S i) 1%nat
    (foldl (λ dp j, dp_set dp i j (dp_cell word1 word2 dp i j))
           dp (seq 1 (length word2))).
Proof.
  intros Hi Hdp.
  assert (Hrow : filled i (1 + length word2)%nat
                   (foldl (λ dp j, dp_set dp i j (dp_cell word1 word2 dp i j))
                          dp (seq 1 (length word2)))).
  { apply (foldl_seq_invariant (λ j dp, filled i j dp)); [done|].
    intros j dp' Hj Hdp'. apply fill_cell; [done|lia|done]. }
  destruct Hrow as [Hshape Hcells]. split; [done|].
  intros i' j' Hi' Hj' Hdone. apply Hcells; [done|done|]. lia.
Qed.

(** The filled matrix holds, in its last cell, the recurrence on the two
    whole words. *)
Lemma dp_fill_spec :
  dp_get (dp_fill word1 word2 (dp_base (length word1) (length word2)))
         (length word1) (length word2)
  = edit_cost (reverse word1) (reverse word2).
Proof.
  destruct (dp_base_spec word1 word2) as (Hshape & Hcol & Hrow).
  assert (Hall : filled (1 + length word1)%nat 1%nat
                   (dp_fill word1 word2
                      (dp_base (length word1) (length word2)))).
  { unfold dp_fill.
    apply (foldl_seq_invariant (λ i dp, filled i 1%nat dp)).
    - split; [done|]. intros i' j' Hi' Hj' Hdone.
      destruct (decide (j' = 0%nat)) as [->|]; [by apply Hcol|].
      assert (i' = 0%nat) as -> by lia. by apply Hrow.
    - intros i dp Hi Hdp. apply fill_row; [lia|done]. }
  destruct Hall as [_ Hcells].
  rewrite Hcells by lia. by rewrite !take_ge by lia.
Qed.

End table_fill.

(** Outside its two shortcuts, [confusion_distance] is the recurrence. *)
Lemma confusion_distance_recurrence (word1 word2 : str) :
  word1 ≠ word2 →
  Z.abs (len word1 - len word2) ≤ 3 →
  confusion_distance word1 word2
  = edit_cost (reverse word1) (reverse word2).
Proof.
  intros Hne Hlen. unfold confusion_distance.
  rewrite decide_False by done.
  rewrite (proj2 (Z.ltb_ge 3 _)) by done.
  apply dp_fill_spec.
Qed.

(** ** Symmetry and bounds of the distance *)

Lemma min3_le_1 (a b c : Q) : (Py.min3 a b c <= a)%Q.
Proof. unfold Py.min3, Py.min. repeat destruct (Qlt_le_dec _ _); lra. Qed.

Lemma min3_le_3 (a b c : Q) : (Py.min3 a b c <= c)%Q.
Proof. unfold Py.min3, Py.min. repeat destruct (Qlt_le_dec _ _); lra. Qed.

Lemma min3_glb (m a b c : Q) :
  (m <= a → m <= b → m <= c → m <= Py.min3 a b c)%Q.
Proof. unfold Py.min3, Py.min. repeat destruct (Qlt_le_dec _ _); lra. Qed.

Lemma min3_swap (a b c a' b' c' : Q) :
  (a == a' → b == b' → c == c' → Py.min3 a b c == Py.min3 b' a' c')%Q.
Proof. unfold Py.min3, Py.min. repeat destruct (Qlt_le_dec _ _); lra. Qed.

Lemma substitution_cost_sym (c1 c2 : N) :
  substitution_cost c1 c2 = substitution_cost c2 c1.
Proof.
  unfold substitution_cost.
  destruct (decide (c1 = c2)) as [->|Hne].
  - by rewrite decide_True.
  - rewrite decide_False by done. by rewrite orb_comm.
Qed.

Lemma substitution_cost_range (c1 c2 : N) :
  (0 <= substitution_cost c1 c2 <= 1)%Q
  ∧ (c1 ≠ c2 → (0.3 <= substitution_cost c1 c2)%Q).
Proof.
  unfold substitution_cost. case_decide; [split; [lra|done]|].
  destruct (_ || _); split; try lra; intros _; lra.
Qed.

Lemma len_cons {A} (x : A) (l : list A) : len (x :: l) = len l + 1.
Proof. unfold len. simpl. lia. Qed.

Lemma len_nonneg {A} (l : list A) : 0 ≤ len l.
Proof. unfold len. lia. Qed.

Lemma inject_Z_le_0 (z : Z) : 0 ≤ z → (0 <= inject_Z z)%Q.
Proof. intros Hz. change 0%Q with (inject_Z 0). by rewrite <- Zle_Qle. Qed.

Lemma inject_Z_succ (z : Z) : (inject_Z (z + 1) == inject_Z z + 1)%Q.
Proof. by rewrite inject_Z_plus. Qed.

Lemma edit_cost_sym (l1 l2 : list N) :
  (edit_cost l1 l2 == edit_cost l2 l1)%Q.
Proof.
  revert l2. induction l1 as [|a l1 IH1]; intros l2.
  - by rewrite edit_cost_nil_r.
  - induction l2 as [|b l2 IH2]; [done|].
    rewrite !edit_cost_cons. rewrite (substitution_cost_sym b a).
    apply min3_swap.
    + by rewrite IH1.
    + by rewrite IH2.
    + by rewrite IH1.
Qed.

Lemma edit_cost_nonneg (l1 l2 : list N) : (0 <= edit_cost l1 l2)%Q.
Proof.
  revert l2. induction l1 as [|a l1 IH1]; intros l2.
  - simpl. pose proof (inject_Z_le_0 _ (len_nonneg l2)). lra.
  - induction l2 as [|b l2 IH2].
    + rewrite edit_cost_nil_r.
      pose proof (inject_Z_le_0 _ (len_nonneg (a :: l1))). lra.
    + rewrite edit_cost_cons.
      pose proof (IH1 (b :: l2)). pose proof (IH1 l2).
      destruct (substitution_cost_range a b) as [[? ?] _].
      apply min3_glb; lra.
Qed.

(** Two different words are at distance 0.3 at least. *)
Lemma edit_cost_apart (l1 l2 : list N) :
  l1 ≠ l2 → (0.3 <= edit_cost l1 l2)%Q.
Proof.
  revert l2. induction l1 as [|a l1 IH1]; intros l2 Hne.
  - destruct l2 as [|b l2]; [done|]. simpl. rewrite len_cons.
    rewrite inject_Z_succ.
    pose proof (inject_Z_le_0 _ (len_nonneg l2)). lra.
  - destruct l2 as [|b l2].
    + rewrite edit_cost_nil_r, len_cons, inject_Z_succ.
      pose proof (inject_Z_le_0 _ (len_nonneg l1)). lra.
    + rewrite edit_cost_cons.
      pose proof (edit_cost_nonneg l1 (b :: l2)).
      pose proof (edit_cost_nonneg (a :: l1) l2).
      pose proof (edit_cost_nonneg l1 l2).
      destruct (substitution_cost_range a b) as [[? ?] Hab].
      apply min3_glb; [lra|lra|].
      destruct (decide (a = b)) as [->|Hneq].
      * assert (l1 ≠ l2) as Hl by congruence.
        pose proof (IH1 l2 Hl). lra.
      * pose proof (Hab Hneq). lra.
Qed.

(** The distance of two words is at most the length of the longer one. *)
Lemma edit_cost_le_max (l1 l2 : list N) :
  (edit_cost l1 l2 <= inject_Z (Z.max (len l1) (len l2)))%Q.
Proof.
  revert l2. induction l1 as [|a l1 IH1]; intros l2.
  - simpl. rewrite Z.max_r by apply len_nonneg. lra.
  - destruct l2 as [|b l2].
    + rewrite edit_cost_nil_r. rewrite Z.max_l by apply len_nonneg. lra.
    + rewrite edit_cost_cons, !len_cons.
      rewrite Z.add_max_distr_r, inject_Z_succ.
      pose proof (IH1 l2).
      destruct (substitution_cost_range a b) as [[? ?] _].
      eapply Qle_trans; [apply min3_le_3|]. lra.
Qed.

Lemma len_reverse (l : list N) : len (reverse l) = len l.
Proof. unfold len. by rewrite length_reverse. Qed.

Lemma reverse_inj' (l1 l2 : list N) : reverse l1 = reverse l2 → l1 = l2.
Proof.
  intros H. rewrite <- (reverse_involutive l1), <- (reverse_involutive l2).
  by rewrite H.
Qed.

(** [confusion_distance] does not depend on the order of its arguments. *)
Theorem confusion_distance_symmetric (word1 word2 : str) :
  (confusion_distance word1 word2 == confusion_distance word2 word1)%Q.
Proof.
  destruct (decide (word1 = word2)) as [->|Hne]; [done|].
  destruct (Z_lt_le_dec 3 (Z.abs (len word1 - len word2))) as [Hfar|Hnear].
  - unfold confusion_distance.
    rewrite !decide_False by done.
    rewrite (proj2 (Z.ltb_lt 3 _)) by done.
    rewrite (proj2 (Z.ltb_lt 3 _)) by lia.
    by rewrite Z.max_comm.
  - rewrite !confusion_distance_recurrence by (done || lia).
    apply edit_cost_sym.
Qed.

(** The distance is 0 for equal words and at least 0.3 otherwise; it is
    never more than the length of the longer word. *)
Theorem confusion_distance_bounds (word1 word2 : str) :
  (word1 = word2 → confusion_distance word1 word2 = 0%Q)
  ∧ (word1 ≠ word2 → (0.3 <= confusion_distance word1 word2)%Q)
  ∧ (0 <= confusion_distance word1 word2
     <= inject_Z (Z.max (len word1) (len word2)))%Q.
Proof.
  destruct (decide (word1 = word2)) as [->|Hne].
  - unfold confusion_distance. rewrite decide_True by done.
    split; [done|]. split; [done|]. split; [lra|].
    apply inject_Z_le_0. pose proof (len_nonneg word2). lia.
  - split; [done|].
    destruct (Z_lt_le_dec 3 (Z.abs (len word1 - len word2))) as [Hfar|Hnear].
    + unfold confusion_distance. rewrite decide_False by done.
      rewrite (proj2 (Z.ltb_lt 3 _)) by done.
      pose proof (len_nonneg word1). pose proof (len_nonneg word2).
      assert (Hmax : (inject_Z 4 <= inject_Z (Z.max (len word1) (len word2)))%Q)
        by (rewrite <- Zle_Qle; lia).
      change (inject_Z 4) with 4%Q in Hmax.
      split; [intros _; lra|]. split; lra.
    + rewrite confusion_distance_recurrence by done.
      assert (Hrev : reverse word1 ≠ reverse word2)
        by (intros H; by apply Hne, reverse_inj').
      pose proof (edit_cost_apart _ _ Hrev).
      pose proof (edit_cost_le_max (reverse word1) (reverse word2)) as Hmax.
      rewrite !len_reverse in Hmax.
      split; [done|]. split; [lra|done].
Qed.

Lemma py_max_0_id (x : Q) : (0 <= x)%Q → (Py.max 0 x == x)%Q.
Proof. intros Hx. unfold Py.max. destruct (Qlt_le_dec 0 x); lra. Qed.

(** Outside its two shortcuts, the similarity is
    [100 * (1 - distance / max_len)]: the clamp at 0 never acts. *)
Lemma confusion_similarity_value (word1 word2 : str) :
  word1 ≠ word2 →
  (confusion_similarity word1 word2
   == 100 * (1 - confusion_distance word1 word2
                 / inject_Z (Z.max (len word1) (len word2))))%Q
  ∧ (0 < inject_Z (Z.max (len word1) (len word2)))%Q.
Proof.
  intros Hne.
  assert (Hpos : 0 < Z.max (len word1) (len word2)).
  { destruct word1, word2; try done; rewrite ?len_cons;
      pose proof (len_nonneg word1); pose proof (len_nonneg word2); lia. }
  assert (Hposq : (0 < inject_Z (Z.max (len word1) (len word2)))%Q).
  { change 0%Q with (inject_Z 0). by rewrite <- Zlt_Qlt. }
  split; [|done].
  unfold confusion_similarity. rewrite decide_False by done.
  rewrite decide_False by lia.
  apply py_max_0_id.
  destruct (confusion_distance_bounds word1 word2) as (_ & _ & [H0 Hmax]).
  assert (Hdiv : (confusion_distance word1 word2
                  / inject_Z (Z.max (len word1) (len word2)) <= 1)%Q).
  { apply Qle_shift_div_r; [done|]. lra. }
  lra.
Qed.

(** [confusion_similarity] is reflexive and symmetric, stays within
    [0, 100], and reaches 100 for equal words only. *)
Theorem confusion_similarity_properties (word1 word2 : str) :
  confusion_similarity word1 word1 = 100%Q
  ∧ (confusion_similarity word1 word2 == confusion_similarity word2 word1)%Q
  ∧ (0 <= confusion_similarity word1 word2 <= 100)%Q
  ∧ (word1 ≠ word2 → (confusion_similarity word1 word2 < 100)%Q).
Proof.
  split; [unfold confusion_similarity; by rewrite decide_True|].
  destruct (decide (word1 = word2)) as [->|Hne].
  { split; [done|]. split; [|done].
    unfold confusion_similarity. rewrite decide_True by done. lra. }
  destruct (confusion_similarity_value word1 word2 Hne) as [H12 Hpos].
  destruct (confusion_similarity_value word2 word1) as [H21 _];
    [congruence|].
  destruct (confusion_distance_bounds word1 word2)
    as (_ & Hapart & [H0 Hmax]).
  pose proof (Hapart Hne) as Hd.
  set (m := inject_Z (Z.max (len word1) (len word2))) in *.
  set (d := confusion_distance word1 word2) in *.
  assert (Hdiv1 : (d / m <= 1)%Q) by (apply Qle_shift_div_r; [done|]; lra).
  assert (Hdiv0 : (0 < d / m)%Q).
  { apply Qlt_shift_div_l; [done|]. lra. }
  split; [|split].
  - rewrite H12, H21. rewrite (Z.max_comm (len word2)).
    fold m. by rewrite (confusion_distance_symmetric word2 word1).
  - rewrite H12. lra.
  - intros _. rewrite H12. lra.
Qed.

(** ** What [correct_word] can return *)

(** The loop over the candidates keeps the word itself until a candidate
    beats it, and then holds a candidate together with its debug info. *)
Lemma pick_best_spec (self : EnhancedPostProcessor.t)
    (prev_word next_word : option str) (word : str)
    (candidates : list cand) :
  let best :=
    EnhancedPostProcessor.pick_best self prev_word next_word word candidates in
  (best.2 = None → best.1.1 = word)
  ∧ (best.1.1 = word ∨ ∃ c, c ∈ candidates ∧ c.1.1 = best.1.1).
Proof.
  unfold EnhancedPostProcessor.pick_best.
  set (P := λ (seen : list cand) (best : str * Q * option info),
              (best.2 = None → best.1.1 = word)
              ∧ (best.1.1 = word ∨ ∃ c, c ∈ seen ∧ c.1.1 = best.1.1)).
  cut (∀ todo seen best,
         P seen best →
         P (seen ++ todo)
           (foldl (λ (best : str * Q * option info) (c : cand),
              let '(best_candidate, best_score, best_info) := best in
              let '(candidate, base_score, info) := c in
              let context_score :=
                EnhancedPostProcessor.get_context_score self prev_word
                  candidate next_word in
              let final_score :=
                ((1 - EnhancedPostProcessor.context_weight self) * base_score
                 + EnhancedPostProcessor.context_weight self * context_score)%Q
              in
              if Qlt_le_dec best_score final_score then
                (candidate, final_score,
                 Some (dict_update info
                         {[ "base_score" := VFloat base_score;
                            "context_score" := VFloat context_score;
                            "final_score" := VFloat final_score;
                            "prev_word" := opt_str prev_word;
                            "next_word" := opt_str next_word ]}))
              else best) best todo)).
  { intros H. apply (H candidates [] (word, 0%Q, None)).
    split; [done|by left]. }
  induction todo as [|[[candidate base_score] i] todo IH];
    intros seen [[bc bs] bi] [Hnone Hin].
  - by rewrite app_nil_r.
  - cbn [foldl].
    replace (seen ++ (candidate, base_score, i) :: todo)
      with ((seen ++ [(candidate, base_score, i)]) ++ todo)
      by (by rewrite <- app_assoc).
    apply IH. cbv zeta. destruct (Qlt_le_dec _ _).
    + split; [done|]. right. exists (candidate, base_score, i).
      split; [|done]. apply elem_of_app. right. by apply list_elem_of_singleton.
    + split; [done|]. destruct Hin as [?|(c & Hc & ?)]; [by left|].
      right. exists c. split; [|done]. apply elem_of_app. by left.
Qed.

(** A word shorter than [min_word_length] is returned as it is.  In every
    case a reported correction differs from the word and carries its debug
    info, no info is returned without a correction, and the returned word
    is the input word or the text of one of the candidates. *)
Theorem correct_word_outcome
    (rt : runtime) (self : EnhancedPostProcessor.t) (word : str)
    (char_confidences : option (list Q)) (prev_word next_word : option str) :
  let result :=
    EnhancedPostProcessor.correct_word rt self word char_confidences
      prev_word next_word in
  (len word < EnhancedPostProcessor.min_word_length self →
   result = (word, false, None))
  ∧ (result.1.2 = true → result.1.1 ≠ word ∧ is_Some result.2)
  ∧ (result.1.2 = false → result.2 = None)
  ∧ (result.1.1 = word
     ∨ ∃ c, c ∈ EnhancedPostProcessor.find_candidates rt self word
                  char_confidences 10
            ∧ c.1.1 = result.1.1).
Proof.
  cbv zeta. unfold EnhancedPostProcessor.correct_word.
  destruct (len word <? EnhancedPostProcessor.min_word_length self) eqn:Hshort.
  { simpl. split; [done|]. split; [done|]. split; [done|]. by left. }
  apply Z.ltb_ge in Hshort.
  split; [intros; lia|].
  case_decide as Hin.
  { simpl. split; [done|]. split; [done|]. by left. }
  destruct (EnhancedPostProcessor.find_candidates rt self word
              char_confidences 10) as [|[[c0 s0] i0] rest] eqn:Hcands.
  { simpl. split; [done|]. split; [done|]. by left. }
  destruct (Qeq_bool s0 0).
  { simpl. split; [done|]. split; [done|]. by left. }
  pose proof (pick_best_spec self prev_word next_word word
                ((c0, s0, i0) :: rest)) as [Hnone Hfrom].
  destruct (EnhancedPostProcessor.pick_best _ _ _ _ _) as [[bc bs] bi].
  simpl in Hnone, Hfrom.
  set (threshold := match char_confidences with
                    | Some (c1 :: cs) => _
                    | _ => _
                    end).
  destruct (bool_decide (bc ≠ word) && Qle_bool threshold bs) eqn:Hwas; simpl.
  - apply andb_true_iff in Hwas as [Hne _]. apply bool_decide_eq_true in Hne.
    split; [|split; [done|done]].
    intros _. split; [done|]. destruct bi; [by eexists|]. by destruct Hne, Hnone.
  - split; [done|]. split; [done|]. done.
Qed.

(** ** The merge and the similarity, as the specification states them *)


(** C4: [confusion_similarity] gives 100 on equal words, the same value
    for [(a, b)] and for [(b, a)], and a value between 0 and 100. *)
Theorem C4_similarity_reflexive_symmetric_bounded (a b : str) :
  confusion_similarity a a = 100%Q
  ∧ (confusion_similarity a b == confusion_similarity b a)%Q
  ∧ (0 <= confusion_similarity a b <= 100)%Q.
Proof.
  split; [unfold confusion_similarity; by rewrite decide_True|].
  destruct (decide (a = b)) as [->|Hne].
  { split; [done|].
    unfold confusion_similarity. rewrite decide_True by done. lra. }
  assert (Hne' : b ≠ a) by congruence.
  destruct (confusion_similarity_value a b Hne) as [Hab Hpos].
  destruct (confusion_similarity_value b a Hne') as [Hba _].
  assert (Hsym : (confusion_distance b a == confusion_distance a b)%Q).
  { destruct (Z_lt_le_dec 3 (Z.abs (len a - len b))) as [Hfar|Hnear].
    - unfold confusion_distance. rewrite !decide_False by done.
      rewrite (proj2 (Z.ltb_lt 3 _)) by lia.
      rewrite (proj2 (Z.ltb_lt 3 _)) by done.
      by rewrite Z.max_comm.
    - rewrite !confusion_distance_recurrence by (done || lia).
      apply edit_cost_sym. }
  assert (Hd : (0 <= confusion_distance a b
                <= inject_Z (Z.max (len a) (len b)))%Q).
  { destruct (Z_lt_le_dec 3 (Z.abs (len a - len b))) as [Hfar|Hnear].
    - unfold confusion_distance. rewrite decide_False by done.
      rewrite (proj2 (Z.ltb_lt 3 _)) by done. split; lra.
    - rewrite confusion_distance_recurrence by done.
      pose proof (edit_cost_nonneg (reverse a) (reverse b)).
      pose proof (edit_cost_le_max (reverse a) (reverse b)) as Hmax.
      rewrite !len_reverse in Hmax. done. }
  set (m := inject_Z (Z.max (len a) (len b))) in *.
  set (d := confusion_distance a b) in *.
  assert (Hdiv1 : (d / m <= 1)%Q) by (apply Qle_shift_div_r; [done|]; lra).
  assert (Hdiv0 : (0 <= d / m)%Q) by (apply Qle_shift_div_l; [done|]; lra).
  split.
  - rewrite Hab, Hba. rewrite (Z.max_comm (len b)). fold m. by rewrite Hsym.
  - rewrite Hab. lra.
Qed.
